(** * Sia host database and host RPC front-end

    A shallow embedding of [modules/hostdb/hostdb.go] (the host directory) and
    of the connection handler of [modules/host/network.go], together with the
    properties of these two files that the specification states.

    Conventions of the embedding.
    - A Go method with receiver [hdb *HostDB] becomes a function in the monad
      [M]: it takes the directory, and either returns a value with the new
      directory, or blocks for ever on [hdb.mu], or panics.
    - [hdb.mu] is kept in the state, so that taking a lock that is already held
      is visible: Go's [sync.RWMutex] is not re-entrant.
    - A [*hostNode] is a node address (a [nat]); the tree below [hdb.hostTree]
      is the inductive [hostNode], whose nodes carry their address. *)

From Stdlib Require Import ZArith NArith Lia List Strings.Byte.
From stdpp Require Import base strings gmap list fin_maps.

Local Open Scope N_scope.

Module hostdb.

(** ** Collaborators of the package

    [consensus.Block], [consensus.BlockID], the weight policy of an entry and
    [findHostAnnouncements] are used by [hostdb.go] and declared elsewhere in
    the repository.  They are the parameters of the development. *)

Abbreviation Address := string (only parsing).

(** [modules.HostEntry]: the address is the identity of the entry, the
    remaining announcement data is opaque to the directory. *)
Record HostEntry := mkHostEntry { IPAddress : Address; Metadata : N }.

(** The value of an unassigned [modules.HostEntry] result variable. *)
Definition zeroEntry : HostEntry := mkHostEntry EmptyString 0.

Inductive error :=
| ErrNilState        (* "HostDB can't use nil State" *)
| ErrDuplicate       (* "entry of given id already exists in host db" *)
| ErrNotFound        (* "address not found in host database" *)
| ErrNoHosts         (* "no hosts found" *)
| ErrAnnouncements (msg : string)   (* returned by findHostAnnouncements *)
| ErrReader (msg : string)          (* returned by rand.Reader *)
| ErrWeight.                        (* returned by entryAtWeight *)

Definition message (e : error) : string :=
  match e with
  | ErrNilState => "HostDB can't use nil State"
  | ErrDuplicate => "entry of given id already exists in host db"
  | ErrNotFound => "address not found in host database"
  | ErrNoHosts => "no hosts found"
  | ErrAnnouncements m => m
  | ErrReader m => m
  | ErrWeight => "weight exceeds the weight of the tree"
  end.

(** What a call into a collaborator gives: a value, or a failure with its
    message. *)
Inductive result (A : Type) := Ok (a : A) | Err (msg : string).
Arguments Ok {A} a.
Arguments Err {A} msg.

Class Consensus := {
  Block : Type;
  BlockID : Type;
  BlockHeight : Type;
  (** [b.ID()] *)
  blockID : Block → BlockID;
  (** the scalar weight of an entry, a non-negative number *)
  entryWeight : HostEntry → N;
  (** [findHostAnnouncements(height, b)] *)
  findHostAnnouncements : BlockHeight → Block → result (list HostEntry)
}.

(** ** The weighted selection tree *)

(** [nilNode] is the nil pointer.  [Node p w e l r] is the node at address [p]
    holding entry [e], with aggregate weight [w] and children [l] and [r]; the
    parent back-reference of the source is the position in the term.
    [vacated p w l r] is a node at address [p] that holds no host any more: it
    is still part of the tree, with its children, and has no own weight.
    Only the root of the tree is ever left like that (see [hn_remove]). *)
Inductive hostNode :=
| nilNode
| Node (ptr : nat) (weight : N) (hostEntry : HostEntry) (left right : hostNode)
| vacated (ptr : nat) (weight : N) (left right : hostNode).

(** [hn.weight]; reading it through a nil pointer is guarded by the callers. *)
Definition weightOf (hn : hostNode) : N :=
  match hn with
  | nilNode => 0
  | Node _ w _ _ _ => w
  | vacated _ w _ _ => w
  end.

(** The nodes that hold a host, each with its address. *)
Fixpoint nodes (hn : hostNode) : list (nat * HostEntry) :=
  match hn with
  | nilNode => []
  | Node p _ e l r => (p, e) :: nodes l ++ nodes r
  | vacated _ _ l r => nodes l ++ nodes r
  end.

(** The addresses of all nodes reachable from [hn], vacated ones included. *)
Fixpoint ptrs (hn : hostNode) : list nat :=
  match hn with
  | nilNode => []
  | Node p _ _ l r => p :: ptrs l ++ ptrs r
  | vacated p _ l r => p :: ptrs l ++ ptrs r
  end.

Definition entries (hn : hostNode) : list HostEntry := (nodes hn).*2.

(** The entry stored at the node of address [p], if the tree has that node
    and it holds a host. *)
Fixpoint deref (p : nat) (hn : hostNode) : option HostEntry :=
  match hn with
  | nilNode => None
  | Node q _ e l r =>
      if decide (q = p) then Some e
      else match deref p l with
           | Some x => Some x
           | None => deref p r
           end
  | vacated _ _ l r =>
      match deref p l with
      | Some x => Some x
      | None => deref p r
      end
  end.

Section tree.
Context `{Consensus}.

(** Modelled from the spec: [createNode], missing from the sources (§4.1
    createRoot: "builds a single-node tree; own weight derived from the
    entry").  [p] is the address of the new node. *)
Definition createNode (p : nat) (entry : HostEntry) : hostNode :=
  Node p (entryWeight entry) entry nilNode nilNode.

(** Modelled from the spec: [hostNode.insert], missing from the sources
    (§4.1 insert: "attach under the first position with a missing child,
    scanning deterministically — e.g. left-to-right, depth-first, creates a
    new leaf there, then walks from the new leaf to the root adding the
    leaf's weight to every ancestor's aggregate").  The new leaf is the node
    of address [p]. *)
Fixpoint hn_insert (p : nat) (entry : HostEntry) (hn : hostNode) : hostNode :=
  match hn with
  | nilNode => nilNode
  | Node q w e l r =>
      let w' := w + entryWeight entry in
      match l, r with
      | nilNode, _ => Node q w' e (createNode p entry) r
      | _, nilNode => Node q w' e l (createNode p entry)
      | _, _ => Node q w' e (hn_insert p entry l) r
      end
  | vacated q w l r =>
      let w' := w + entryWeight entry in
      match l, r with
      | nilNode, _ => vacated q w' (createNode p entry) r
      | _, nilNode => vacated q w' l (createNode p entry)
      | _, _ => vacated q w' (hn_insert p entry l) r
      end
  end.

(** Re-attaching a detached subtree [sub] beneath [hn], at the first position
    with a missing child; the aggregates on the way down grow by the weight of
    [sub]. *)
Fixpoint graft (sub : hostNode) (hn : hostNode) : hostNode :=
  match hn with
  | nilNode => sub
  | Node q w e l r =>
      let w' := w + weightOf sub in
      match l, r with
      | nilNode, _ => Node q w' e sub r
      | _, nilNode => Node q w' e l sub
      | _, _ => Node q w' e (graft sub l) r
      end
  | vacated q w l r =>
      let w' := w + weightOf sub in
      match l, r with
      | nilNode, _ => vacated q w' sub r
      | _, nilNode => vacated q w' l sub
      | _, _ => vacated q w' (graft sub l) r
      end
  end.

(** What takes the slot of a removed node with children [l] and [r]: "promote
    a child subtree into the vacated slot, reattaching remaining children
    beneath it". *)
Definition promote (l r : hostNode) : hostNode :=
  match l, r with
  | nilNode, _ => r
  | _, nilNode => l
  | _, _ => graft r l
  end.

(** [detach p hn] detaches the node of address [p] from its place in [hn],
    through the link of its parent; it gives the own weight of that node and
    the remaining tree, or [None] when no node of [hn] holds a host at [p].
    "After detachment/promotion, every ancestor on the path to the root has
    the removed node's own weight subtracted from its aggregate."  It is used
    on the subtrees below the root. *)
Fixpoint detach (p : nat) (hn : hostNode) : option (N * hostNode) :=
  match hn with
  | nilNode => None
  | Node q w e l r =>
      if decide (q = p) then Some (entryWeight e, promote l r)
      else match detach p l with
           | Some (own, l') => Some (own, Node q (w - own) e l' r)
           | None =>
               match detach p r with
               | Some (own, r') => Some (own, Node q (w - own) e l r')
               | None => None
               end
           end
  | vacated q w l r =>
      match detach p l with
      | Some (own, l') => Some (own, vacated q (w - own) l' r)
      | None =>
          match detach p r with
          | Some (own, r') => Some (own, vacated q (w - own) l r')
          | None => None
          end
      end
  end.

(** Modelled from the spec: [hostNode.remove], missing from the sources
    (§4.1 remove), as far as [hostdb.go] leaves room for it.  [hn] is the
    tree below [hdb.hostTree] and [p] the node removed.  A node below the
    root is detached from its parent and a child is promoted into its slot,
    as the spec says.  The root has no parent: its slot is [hdb.hostTree],
    which [remove] cannot reach (it is given the node only) and which
    [Remove] does not assign.  So the root stays where it is: it is vacated,
    keeps its children, and loses its own weight.  The spec's "Removing the
    last node clears the root reference" cannot be had with the [Remove] of
    [hostdb.go].  A node that is not in the tree leaves the tree as it
    is. *)
Definition hn_remove (p : nat) (hn : hostNode) : hostNode :=
  match hn with
  | nilNode => nilNode
  | Node q w e l r =>
      if decide (q = p) then vacated q (w - entryWeight e) l r
      else match detach p l with
           | Some (own, l') => Node q (w - own) e l' r
           | None =>
               match detach p r with
               | Some (own, r') => Node q (w - own) e l r'
               | None => hn
               end
           end
  | vacated q w l r =>
      match detach p l with
      | Some (own, l') => vacated q (w - own) l' r
      | None =>
          match detach p r with
          | Some (own, r') => vacated q (w - own) l r'
          | None => hn
          end
      end
  end.

(** Modelled from the spec: [hostNode.entryAtWeight], missing from the
    sources (§4.1 entryAtWeight: "if w falls within that node's own
    weight-slice, return this node's entry; otherwise subtract the slice
    already accounted for and continue into the child subtree whose weight
    range contains the remaining w"). *)
Fixpoint entryAtWeight (w : N) (hn : hostNode) : HostEntry * option error :=
  match hn with
  | nilNode => (zeroEntry, Some ErrWeight)
  | Node _ _ e l r =>
      if w <? entryWeight e then (e, None)
      else
        let w1 := w - entryWeight e in
        if w1 <? weightOf l then entryAtWeight w1 l
        else entryAtWeight (w1 - weightOf l) r
  | vacated _ _ l r =>
      if w <? weightOf l then entryAtWeight w l
      else entryAtWeight (w - weightOf l) r
  end.

End tree.

(** ** The directory *)

Record RWMutex := mkRWMutex { writer : bool; readers : nat }.

Definition unlocked : RWMutex := mkRWMutex false 0.

Section directory.
Context `{Consensus}.

(** [consensus.State], as far as [New] reads it. *)
Record State := mkState { CurrentBlock : Block }.

Record HostDB := mkHostDB {
  state : State;
  recentBlock : BlockID;
  hostTree : hostNode;
  activeHosts : gmap string nat;
  inactiveHosts : gmap string HostEntry;
  mu : RWMutex
}.

Definition set_mu (m : RWMutex) (hdb : HostDB) : HostDB :=
  mkHostDB (state hdb) (recentBlock hdb) (hostTree hdb) (activeHosts hdb)
           (inactiveHosts hdb) m.

Definition set_tree (t : hostNode) (a : gmap string nat) (hdb : HostDB) : HostDB :=
  mkHostDB (state hdb) (recentBlock hdb) t a (inactiveHosts hdb) (mu hdb).

Definition set_inactive (i : gmap string HostEntry) (hdb : HostDB) : HostDB :=
  mkHostDB (state hdb) (recentBlock hdb) (hostTree hdb) (activeHosts hdb) i
           (mu hdb).

(** How a call on the directory ends: it returns, it waits for ever on
    [hdb.mu], or it panics. *)
Inductive outcome (A : Type) :=
| Returned (a : A) (hdb : HostDB)
| Blocked (hdb : HostDB)
| Panicked (hdb : HostDB).
Arguments Returned {A} a hdb.
Arguments Blocked {A} hdb.
Arguments Panicked {A} hdb.

Definition M (A : Type) : Type := HostDB → outcome A.

Definition ret {A} (a : A) : M A := λ hdb, Returned a hdb.

Definition bind {A B} (m : M A) (k : A → M B) : M B :=
  λ hdb, match m hdb with
         | Returned a hdb' => k a hdb'
         | Blocked hdb' => Blocked hdb'
         | Panicked hdb' => Panicked hdb'
         end.

(** The directory an outcome leaves behind. *)
Definition final {A} (o : outcome A) : HostDB :=
  match o with
  | Returned _ hdb => hdb
  | Blocked hdb => hdb
  | Panicked hdb => hdb
  end.

(** [hdb.mu.Lock()]: the caller waits while a writer or a reader holds the
    mutex. *)
Definition Lock : M unit :=
  λ hdb, if writer (mu hdb) || negb (Nat.eqb (readers (mu hdb)) 0)
         then Blocked hdb
         else Returned tt (set_mu (mkRWMutex true 0) hdb).

Definition Unlock (hdb : HostDB) : HostDB :=
  set_mu (mkRWMutex false (readers (mu hdb))) hdb.

(** [hdb.mu.RLock()]: the caller waits while a writer holds the mutex.  The
    mutex state records who holds the lock, not who waits for it: a call that
    waits is the outcome [Blocked] and nothing runs after it.  So the state
    has no writer that is waiting behind readers, which in Go makes a new
    [RLock] wait as well; what is stated about [RLock] is about a mutex that
    no goroutine is waiting on. *)
Definition RLock : M unit :=
  λ hdb, if writer (mu hdb)
         then Blocked hdb
         else Returned tt (set_mu (mkRWMutex false (S (readers (mu hdb)))) hdb).

Definition RUnlock (hdb : HostDB) : HostDB :=
  set_mu (mkRWMutex (writer (mu hdb)) (pred (readers (mu hdb)))) hdb.

(** [lock(); defer unlock(); body]: the deferred call runs when the body
    returns and when it panics, not when it blocks. *)
Definition locked {A} (lock : M unit) (unlock : HostDB → HostDB) (body : M A) : M A :=
  λ hdb, match lock hdb with
         | Returned _ hdb1 =>
             match body hdb1 with
             | Returned a hdb2 => Returned a (unlock hdb2)
             | Panicked hdb2 => Panicked (unlock hdb2)
             | Blocked hdb2 => Blocked hdb2
             end
         | Blocked hdb1 => Blocked hdb1
         | Panicked hdb1 => Panicked hdb1
         end.

(** [err = call; if err != nil { return }] followed by the rest. *)
Definition orReturn (m : M (option error)) (k : M (option error)) : M (option error) :=
  bind m (λ err, match err with Some e => ret (Some e) | None => k end).

(** [New(state)] *)
Definition New (st : option State) : error + HostDB :=
  match st with
  | None => inl ErrNilState
  | Some s => inr (mkHostDB s (blockID (CurrentBlock s)) nilNode ∅ ∅ unlocked)
  end.

(** The address of a newly allocated node: one that no live node has. *)
Definition freshPtr (hdb : HostDB) : nat :=
  S (max_list (ptrs (hostTree hdb) ++ (map_to_list (activeHosts hdb)).*2)).

(** [hdb.insert(entry)] *)
Definition insert (entry : HostEntry) : M (option error) :=
  λ hdb,
    match activeHosts hdb !! IPAddress entry with
    | Some _ => Returned (Some ErrDuplicate) hdb
    | None =>
        let p := freshPtr hdb in
        match hostTree hdb with
        | nilNode =>
            Returned None
              (set_tree (createNode p entry)
                        (<[IPAddress entry := p]> (activeHosts hdb)) hdb)
        | _ =>
            Returned None
              (set_tree (hn_insert p entry (hostTree hdb))
                        (<[IPAddress entry := p]> (activeHosts hdb)) hdb)
        end
    end.

(** [hdb.Insert(entry)] *)
Definition Insert (entry : HostEntry) : M (option error) :=
  locked Lock Unlock (insert entry).

(** [hdb.Remove(addr)] below its [Lock] and [defer Unlock]: what it does
    while it holds the lock.  [Remove] does not assign [hdb.hostTree]: the
    root stays the node it was.  [node.remove()] changes the nodes below
    [hdb.hostTree] in place, through the links of the node; [hn_remove] gives
    the tree as it then is, with the same root node. *)
Definition removeLocked (addr : Address) : M (option error) :=
  λ hdb,
    match activeHosts hdb !! addr with
    | None =>
        match inactiveHosts hdb !! addr with
        | Some _ => Returned None (set_inactive (delete addr (inactiveHosts hdb)) hdb)
        | None => Returned (Some ErrNotFound) hdb
        end
    | Some node =>
        Returned None
          (set_tree (hn_remove node (hostTree hdb))
                    (delete addr (activeHosts hdb)) hdb)
    end.

(** [hdb.Remove(addr)] *)
Definition Remove (addr : Address) : M (option error) :=
  locked Lock Unlock (removeLocked addr).

(** [hdb.FlagHost(addr)] *)
Definition FlagHost (addr : Address) : M (option error) :=
  Remove addr.

(** The inner loop of the first half of [Update]:
    [for _, entry := range entries { err = hdb.Remove(entry.IPAddress) ... }] *)
Fixpoint rewindEntries (es : list HostEntry) : M (option error) :=
  match es with
  | [] => ret None
  | entry :: rest => orReturn (Remove (IPAddress entry)) (rewindEntries rest)
  end.

(** [for _, b := range rewoundBlocks { ... }] *)
Fixpoint rewindBlocks (h : BlockHeight) (bs : list Block) : M (option error) :=
  match bs with
  | [] => ret None
  | b :: rest =>
      match findHostAnnouncements h b with
      | Err msg => ret (Some (ErrAnnouncements msg))
      | Ok es => orReturn (rewindEntries es) (rewindBlocks h rest)
      end
  end.

(** [for _, entry := range entries { err = hdb.insert(entry) ... }] *)
Fixpoint applyEntries (es : list HostEntry) : M (option error) :=
  match es with
  | [] => ret None
  | entry :: rest => orReturn (insert entry) (applyEntries rest)
  end.

(** [for _, b := range appliedBlocks { ... }] *)
Fixpoint applyBlocks (h : BlockHeight) (bs : list Block) : M (option error) :=
  match bs with
  | [] => ret None
  | b :: rest =>
      match findHostAnnouncements h b with
      | Err msg => ret (Some (ErrAnnouncements msg))
      | Ok es => orReturn (applyEntries es) (applyBlocks h rest)
      end
  end.

(** [hdb.Update(initialStateHeight, rewoundBlocks, appliedBlocks)] *)
Definition Update (initialStateHeight : BlockHeight)
    (rewoundBlocks appliedBlocks : list Block) : M (option error) :=
  locked Lock Unlock
    (orReturn (rewindBlocks initialStateHeight rewoundBlocks)
              (applyBlocks initialStateHeight appliedBlocks)).

(** Go's conversion of an integer to [int64]. *)
Definition int64 (z : Z) : Z :=
  ((z + 2 ^ 63) mod 2 ^ 64 - 2 ^ 63)%Z.

(** [rand.Int(rand.Reader, max)]: panics when [max <= 0]; when [max] is 1
    the only number below the bound is 0, and it is returned without reading
    from the reader; otherwise the reader's failure, or a number in
    [[0, max)].  [reader] is the entropy source: the number it yields for a
    bound, or its failure. *)
Inductive drawn := DrawPanic | DrawErr (e : error) | Draw (n : Z).

Definition randInt (reader : Z → result Z) (max : Z) : drawn :=
  if (max <=? 0)%Z then DrawPanic
  else if (max =? 1)%Z then Draw 0
  else match reader max with
       | Err msg => DrawErr (ErrReader msg)
       | Ok v => Draw (v mod max)%Z
       end.

(** The bound of the draw of [RandomHost]: [int64(hdb.hostTree.weight)]. *)
Definition drawBound (hdb : HostDB) : Z := int64 (Z.of_N (weightOf (hostTree hdb))).

(** [hdb.RandomHost()] *)
Definition RandomHost (reader : Z → result Z) : M (HostEntry * option error) :=
  locked RLock RUnlock
    (λ hdb,
       if Nat.eqb (size (activeHosts hdb)) 0
       then Returned (zeroEntry, Some ErrNoHosts) hdb
       else
         match hostTree hdb with
         | nilNode => Panicked hdb
         | _ =>
             match randInt reader (drawBound hdb) with
             | DrawPanic => Panicked hdb
             | DrawErr e => Returned (zeroEntry, Some e) hdb
             | Draw n =>
                 let randWeight := Z.to_N (int64 n) in
                 Returned (entryAtWeight randWeight (hostTree hdb)) hdb
             end
         end).

End directory.

Arguments Returned {_ _} a hdb.
Arguments Blocked {_ _} hdb.
Arguments Panicked {_ _} hdb.

(** ** The invariants of the directory *)

Definition sumN (l : list N) : N := foldr N.add 0 l.

Section invariants.
Context `{Consensus}.

(** I2: the aggregate of every node is its own weight plus the aggregates of
    its children; a node that holds no host has no own weight. *)
Fixpoint consistent (hn : hostNode) : Prop :=
  match hn with
  | nilNode => True
  | Node _ w e l r =>
      w = entryWeight e + weightOf l + weightOf r ∧ consistent l ∧ consistent r
  | vacated _ w l r =>
      w = weightOf l + weightOf r ∧ consistent l ∧ consistent r
  end.

(** The sum of the own weights of the entries of the tree. *)
Definition ownWeights (hn : hostNode) : N := sumN (entryWeight <$> entries hn).

(** The index entry of a node: the address of its entry, and the node. *)
Definition indexOf (n : nat * HostEntry) : string * nat := (IPAddress n.2, n.1).

(** I1, as an equation: [activeHosts] indexes exactly the nodes of the tree
    that hold a host, each under the address of its entry; no two nodes of
    the tree share a location. *)
Definition indexed (hdb : HostDB) : Prop :=
  NoDup (ptrs (hostTree hdb)) ∧
  map_to_list (activeHosts hdb) ≡ₚ indexOf <$> nodes (hostTree hdb).

(** The invariants of the data, and those of a directory at rest. *)
Definition sound (hdb : HostDB) : Prop :=
  consistent (hostTree hdb) ∧ indexed hdb.

Definition wellFormed (hdb : HostDB) : Prop :=
  sound hdb ∧ mu hdb = unlocked.

(** The entries that a list of blocks announces, in the order in which
    [Update] meets them. *)
Definition announced (h : BlockHeight) (bs : list Block) : list HostEntry :=
  flat_map (λ b, match findHostAnnouncements h b with
                 | Ok es => es
                 | Err _ => []
                 end) bs.

(** The own weight of the entry that an index entry leads to. *)
Definition activeOwnWeight (hn : hostNode) (ix : string * nat) : N :=
  match deref ix.2 hn with
  | Some e => entryWeight e
  | None => 0
  end.

(** The sum of the own weights of all active entries. *)
Definition activeWeight (hdb : HostDB) : N :=
  sumN (activeOwnWeight (hostTree hdb) <$> map_to_list (activeHosts hdb)).

(** The number of nodes reachable from the root, and how many of them hold a
    host. *)
Definition reachableNodes (hdb : HostDB) : nat := length (ptrs (hostTree hdb)).
Definition occupiedNodes (hdb : HostDB) : nat := length (nodes (hostTree hdb)).

(** [occupied hn]: every node of [hn] holds a host.  [rootOnly hn]: no node
    below the root is vacated. *)
Fixpoint occupied (hn : hostNode) : Prop :=
  match hn with
  | nilNode => True
  | Node _ _ _ l r => occupied l ∧ occupied r
  | vacated _ _ _ _ => False
  end.

Definition rootOnly (hn : hostNode) : Prop :=
  match hn with
  | nilNode => True
  | Node _ _ _ l r => occupied l ∧ occupied r
  | vacated _ _ l r => occupied l ∧ occupied r
  end.

(** The aggregate weight of the root; nothing when there is no root. *)
Definition totalWeight (hdb : HostDB) : N := weightOf (hostTree hdb).

(** [keeps f m]: the call [m] leaves the component [f] of the directory as it
    found it, however the call ends. *)
Definition keeps {X A} (f : HostDB → X) (m : M A) : Prop :=
  ∀ hdb, f (final (m hdb)) = f hdb.

(** [shrinks m]: the call [m] adds no inactive host, however it ends. *)
Definition shrinks {A} (m : M A) : Prop :=
  ∀ hdb, inactiveHosts (final (m hdb)) ⊆ inactiveHosts hdb.

(** The calls of a client that mutate the directory. *)
Inductive op := OpInsert (entry : HostEntry) | OpRemove (addr : string).

Definition call (o : op) : M (option error) :=
  match o with
  | OpInsert entry => Insert entry
  | OpRemove addr => Remove addr
  end.

(** A sequence of calls, one after the other; the value is what each call
    returned. *)
Fixpoint calls (os : list op) : M (list (option error)) :=
  match os with
  | [] => ret []
  | o :: rest =>
      bind (call o) (λ err, bind (calls rest) (λ errs, ret (err :: errs)))
  end.

End invariants.

(** ** A small chain, for examples *)

(** A block is its identifier and the announcements it carries; the weight of
    an entry is read off its metadata. *)
Definition chain : Consensus := {|
  Block := N * list HostEntry;
  BlockID := N;
  BlockHeight := N;
  blockID := fst;
  entryWeight := Metadata;
  findHostAnnouncements := λ _ b, Ok b.2
|}.

Definition hostA : HostEntry := mkHostEntry "A" 10.
Definition hostB : HostEntry := mkHostEntry "B" 20.
Definition idle : HostEntry := mkHostEntry "idle" 0.

Definition genesis : N * list HostEntry := (0, []).
Definition block1 : N * list HostEntry := (1, [hostA; hostB]).

(** The directory [New] builds on the genesis block. *)
Definition hdb0 : @HostDB chain :=
  @mkHostDB chain (@mkState chain genesis) 0 nilNode ∅ ∅ unlocked.

(** The directory after [block1] has been applied to [hdb0]. *)
Definition hdb1 : @HostDB chain :=
  @mkHostDB chain (@mkState chain genesis) 0
    (Node 1 30 hostA (Node 2 20 hostB nilNode nilNode) nilNode)
    (<["B" := 2%nat]> (<["A" := 1%nat]> ∅)) ∅ unlocked.

(** A directory whose only host has weight zero. *)
Definition hdbIdle : @HostDB chain :=
  @mkHostDB chain (@mkState chain genesis) 0
    (Node 1 0 idle nilNode nilNode) (<["idle" := 1%nat]> ∅) ∅ unlocked.

(** A directory whose only host has weight one. *)
Definition single : HostEntry := mkHostEntry "single" 1.

Definition hdbSingle : @HostDB chain :=
  @mkHostDB chain (@mkState chain genesis) 0
    (Node 1 1 single nilNode nilNode) (<["single" := 1%nat]> ∅) ∅ unlocked.

(** [hdb1] while two readers, and while a writer, hold the lock. *)
Definition hdbReading : @HostDB chain := @set_mu chain (mkRWMutex false 2) hdb1.
Definition hdbWriting : @HostDB chain := @set_mu chain (mkRWMutex true 0) hdb1.

(** A block that announces [hostA] twice. *)
Definition block2 : N * list HostEntry := (2, [hostA; hostB; hostA]).

(** A chain on which the announcements of a block may be unreadable. *)
Definition brittle : Consensus := {|
  Block := N * option (list HostEntry);
  BlockID := N;
  BlockHeight := N;
  blockID := fst;
  entryWeight := Metadata;
  findHostAnnouncements := λ _ b,
    match b.2 with
    | Some es => Ok es
    | None => Err "unreadable block"
    end
|}.

Definition brittle0 : @HostDB brittle :=
  @mkHostDB brittle (@mkState brittle (0, Some [])) 0 nilNode ∅ ∅ unlocked.

End hostdb.

Module host.

(** ** The RPC front-end of the host: [threadedHandleConn] *)

(** [types.Specifier], a [[16]byte]. *)
Abbreviation Specifier := (list byte) (only parsing).

#[global] Instance byte_eq_decision : EqDecision byte := Byte.byte_eq_dec.

(** A Go array literal with fewer than sixteen elements: the rest is zero. *)
Definition specifier (name : string) : list byte :=
  take 16 (String.list_byte_of_string name ++ replicate 16 x00).

(** [var rpcSettingsDeprecated = types.Specifier{'S','e','t','t','i','n','g','s'}] *)
Definition rpcSettingsDeprecated : list byte := specifier "Settings".

(** The RPCs of the [switch]. *)
Inductive rpc :=
| Download | RenewContract | FormContract | ReviseContract | RecentRevision
| Settings.

(** The specifiers [modules.RPCDownload], ... are declared in package
    [modules]. *)
Class Specifiers := {
  RPCDownload : list byte;
  RPCRenewContract : list byte;
  RPCFormContract : list byte;
  RPCReviseContract : list byte;
  RPCRecentRevision : list byte;
  RPCSettings : list byte
}.

Definition known `{Specifiers} : list (list byte) :=
  [RPCDownload; RPCRenewContract; RPCFormContract; RPCReviseContract;
   RPCRecentRevision; RPCSettings].

(** The counters of the host, each a [uint64]. *)
Record Host := mkHost {
  atomicDownloadCalls : Z;
  atomicErroredCalls : Z;
  atomicFormContractCalls : Z;
  atomicRenewCalls : Z;
  atomicRecentRevisionCalls : Z;
  atomicReviseCalls : Z;
  atomicSettingsCalls : Z;
  atomicUnrecognizedCalls : Z
}.

(** [atomic.AddUint64(&x, delta)] *)
Definition AddUint64 (x delta : Z) : Z := ((x + delta) mod 2 ^ 64)%Z.

Definition countDownload (h : Host) : Host :=
  mkHost (AddUint64 (atomicDownloadCalls h) 1) (atomicErroredCalls h)
    (atomicFormContractCalls h) (atomicRenewCalls h)
    (atomicRecentRevisionCalls h) (atomicReviseCalls h)
    (atomicSettingsCalls h) (atomicUnrecognizedCalls h).

Definition countErrored (h : Host) : Host :=
  mkHost (atomicDownloadCalls h) (AddUint64 (atomicErroredCalls h) 1)
    (atomicFormContractCalls h) (atomicRenewCalls h)
    (atomicRecentRevisionCalls h) (atomicReviseCalls h)
    (atomicSettingsCalls h) (atomicUnrecognizedCalls h).

Definition countFormContract (h : Host) : Host :=
  mkHost (atomicDownloadCalls h) (atomicErroredCalls h)
    (AddUint64 (atomicFormContractCalls h) 1) (atomicRenewCalls h)
    (atomicRecentRevisionCalls h) (atomicReviseCalls h)
    (atomicSettingsCalls h) (atomicUnrecognizedCalls h).

Definition countRenew (h : Host) : Host :=
  mkHost (atomicDownloadCalls h) (atomicErroredCalls h)
    (atomicFormContractCalls h) (AddUint64 (atomicRenewCalls h) 1)
    (atomicRecentRevisionCalls h) (atomicReviseCalls h)
    (atomicSettingsCalls h) (atomicUnrecognizedCalls h).

Definition countRecentRevision (h : Host) : Host :=
  mkHost (atomicDownloadCalls h) (atomicErroredCalls h)
    (atomicFormContractCalls h) (atomicRenewCalls h)
    (AddUint64 (atomicRecentRevisionCalls h) 1) (atomicReviseCalls h)
    (atomicSettingsCalls h) (atomicUnrecognizedCalls h).

Definition countRevise (h : Host) : Host :=
  mkHost (atomicDownloadCalls h) (atomicErroredCalls h)
    (atomicFormContractCalls h) (atomicRenewCalls h)
    (atomicRecentRevisionCalls h) (AddUint64 (atomicReviseCalls h) 1)
    (atomicSettingsCalls h) (atomicUnrecognizedCalls h).

Definition countSettings (h : Host) : Host :=
  mkHost (atomicDownloadCalls h) (atomicErroredCalls h)
    (atomicFormContractCalls h) (atomicRenewCalls h)
    (atomicRecentRevisionCalls h) (atomicReviseCalls h)
    (AddUint64 (atomicSettingsCalls h) 1) (atomicUnrecognizedCalls h).

Definition countUnrecognized (h : Host) : Host :=
  mkHost (atomicDownloadCalls h) (atomicErroredCalls h)
    (atomicFormContractCalls h) (atomicRenewCalls h)
    (atomicRecentRevisionCalls h) (atomicReviseCalls h)
    (atomicSettingsCalls h) (AddUint64 (atomicUnrecognizedCalls h) 1).

(** What the world around the handler does on one connection: whether the
    thread group accepts the task, whether the deadline can be set, what the
    first sixteen bytes are (or the failure to read them), and the error each
    RPC handler would return on this connection. *)
Record Conn := mkConn {
  tgAdd : option string;
  SetDeadline : option string;
  ReadObject : string + list byte;
  managedRPC : rpc → option string
}.

Inductive logLine :=
| WarnDeadline
| DebugMalformed
| DebugDeprecated
| DebugUnknown (id : list byte)
| PrintFailed (id : list byte)
| DebugFailed (id : list byte).

(** One run of the handler: the host it leaves, the RPC handlers it invoked,
    what it logged, and whether the connection has been closed. *)
Record Handled := mkHandled {
  after : Host;
  invoked : list rpc;
  logged : list logLine;
  connClosed : bool
}.

Section dispatch.
Context `{Specifiers}.

(** The [switch id] of the handler: the host after the counter of the case,
    the handler invoked, the log line, and the value of [err] after the
    switch. *)
Definition switchId (c : Conn) (id : list byte) (h : Host)
    : Host * list rpc * list logLine * option string :=
  if decide (id = RPCDownload)
  then (countDownload h, [Download], [], managedRPC c Download)
  else if decide (id = RPCRenewContract)
  then (countRenew h, [RenewContract], [], managedRPC c RenewContract)
  else if decide (id = RPCFormContract)
  then (countFormContract h, [FormContract], [], managedRPC c FormContract)
  else if decide (id = RPCReviseContract)
  then (countRevise h, [ReviseContract], [], managedRPC c ReviseContract)
  else if decide (id = RPCRecentRevision)
  then (countRecentRevision h, [RecentRevision], [], managedRPC c RecentRevision)
  else if decide (id = RPCSettings)
  then (countSettings h, [Settings], [], managedRPC c Settings)
  else if decide (id = rpcSettingsDeprecated)
  then (h, [], [DebugDeprecated], None)
  else (countUnrecognized h, [], [DebugUnknown id], None).

(** The handler between its [defer close(connCloseChan)] and its return. *)
Definition handleConn (c : Conn) (h : Host) : Host * list rpc * list logLine :=
  match tgAdd c with
  | Some _ => (h, [], [])
  | None =>
      match SetDeadline c with
      | Some _ => (h, [], [WarnDeadline])
      | None =>
          match ReadObject c with
          | inl _ => (countUnrecognized h, [], [DebugMalformed])
          | inr id =>
              let '(h1, called, lines, err) := switchId c id h in
              match err with
              | None => (h1, called, lines)
              | Some _ =>
                  let h2 := countErrored h1 in
                  let erroredCalls := atomicErroredCalls h2 in
                  if (erroredCalls <? 1000)%Z
                  then (h2, called, lines ++ [PrintFailed id])
                  else (h2, called, lines ++ [DebugFailed id])
              end
          end
      end
  end.

(** [h.threadedHandleConn(conn)].  The goroutine started at the top closes
    the connection once [connCloseChan] is closed, which the deferred
    [close(connCloseChan)] does on every return. *)
Definition threadedHandleConn (c : Conn) (h : Host) : Handled :=
  let '(h', called, lines) := handleConn c h in
  mkHandled h' called lines true.



End dispatch.

(** ** A protocol, for examples *)

(** The name of the RPC followed by a version byte. *)
Definition versioned (name : string) (version : byte) : list byte :=
  take 16 (String.list_byte_of_string name ++ version :: replicate 16 x00).

Definition protocol : Specifiers := {|
  RPCDownload := versioned "Download" x02;
  RPCRenewContract := versioned "RenewContract" x02;
  RPCFormContract := versioned "FormContract" x02;
  RPCReviseContract := versioned "ReviseContract" x02;
  RPCRecentRevision := versioned "RecentRevision" x02;
  RPCSettings := versioned "Settings" x02
|}.

Definition quiet : Host := mkHost 0 0 0 0 0 0 0 0.

(** A connection that sends the specifier [id]; no handler fails on it. *)
Definition sends (id : list byte) : Conn :=
  mkConn None None (inr id) (λ _, None).

(** The specifier and the counter of each RPC of the [switch]. *)
Definition specifierOf `{Specifiers} (k : rpc) : list byte :=
  match k with
  | Download => RPCDownload
  | RenewContract => RPCRenewContract
  | FormContract => RPCFormContract
  | ReviseContract => RPCReviseContract
  | RecentRevision => RPCRecentRevision
  | Settings => RPCSettings
  end.

Definition counterOf (k : rpc) (h : Host) : Z :=
  match k with
  | Download => atomicDownloadCalls h
  | RenewContract => atomicRenewCalls h
  | FormContract => atomicFormContractCalls h
  | ReviseContract => atomicReviseCalls h
  | RecentRevision => atomicRecentRevisionCalls h
  | Settings => atomicSettingsCalls h
  end.

(** The handlers of several connections, run one after the other.  A [Conn]
    holds what the RPC handlers return on it in this run.  The handlers are
    methods of the host, so in a run that takes the same requests in another
    order they may return otherwise: two runs are compared on connections
    that are the same up to [sameRequest], not on the same [Conn]s. *)
Definition serve `{Specifiers} (cs : list Conn) (h : Host) : Host :=
  foldl (λ h' c, after (threadedHandleConn c h')) h cs.

(** Two connections on which the thread group, the deadline and the bytes
    read are the same; the RPC handlers may return differently on them. *)
Definition sameRequest (c c' : Conn) : Prop :=
  tgAdd c = tgAdd c' ∧ SetDeadline c = SetDeadline c' ∧
  ReadObject c = ReadObject c'.

(** The request of a connection alone, with handlers that do not fail. *)
Definition request (c : Conn) : Conn :=
  mkConn (tgAdd c) (SetDeadline c) (ReadObject c) (λ _, None).

(** The counters of calls: all counters but the count of errors. *)
Definition callCounters (h : Host) : Host :=
  mkHost (atomicDownloadCalls h) 0
    (atomicFormContractCalls h) (atomicRenewCalls h)
    (atomicRecentRevisionCalls h) (atomicReviseCalls h)
    (atomicSettingsCalls h) (atomicUnrecognizedCalls h).

(** A connection that sends [id] and on which every handler fails. *)
Definition failing (id : list byte) : Conn :=
  mkConn None None (inr id) (λ _, Some "refused").

End host.

Import hostdb.

(** * Properties of the host directory *)

Section hostdb_properties.
Context `{Consensus}.

(** ** The mutex *)

Lemma Unlock_locked (hdb : HostDB) :
  mu hdb = unlocked → Unlock (set_mu (mkRWMutex true 0) hdb) = hdb.
Proof. destruct hdb as [? ? ? ? ? m]; simpl; intros ->; reflexivity. Qed.

Lemma RUnlock_rlocked (hdb : HostDB) :
  writer (mu hdb) = false →
  RUnlock (set_mu (mkRWMutex false (S (readers (mu hdb)))) hdb) = hdb.
Proof.
  destruct hdb as [? ? ? ? ? [w r]]; simpl; intros ->; reflexivity.
Qed.

(** A call that takes the write lock on a free mutex runs its body under the
    lock and releases it when the body ends. *)
Lemma locked_free {A} (body : M A) (hdb : HostDB) :
  mu hdb = unlocked →
  locked Lock Unlock body hdb =
    match body (set_mu (mkRWMutex true 0) hdb) with
    | Returned a hdb2 => Returned a (Unlock hdb2)
    | Panicked hdb2 => Panicked (Unlock hdb2)
    | Blocked hdb2 => Blocked hdb2
    end.
Proof. intros Hmu. unfold locked, Lock. by rewrite Hmu. Qed.

(** A call that takes the write lock while the mutex is write-locked never
    gets past its first statement. *)
Lemma locked_held {A} (body : M A) (hdb : HostDB) :
  writer (mu hdb) = true → locked Lock Unlock body hdb = Blocked hdb.
Proof. intros Hw. unfold locked, Lock. by rewrite Hw. Qed.

(** [insert] and [removeLocked] do not look at the mutex. *)
Lemma insert_set_mu (m : RWMutex) (entry : HostEntry) (hdb : HostDB) :
  insert entry (set_mu m hdb) =
    match insert entry hdb with
    | Returned a hdb' => Returned a (set_mu m hdb')
    | Blocked hdb' => Blocked (set_mu m hdb')
    | Panicked hdb' => Panicked (set_mu m hdb')
    end.
Proof.
  unfold insert, freshPtr; simpl.
  destruct (activeHosts hdb !! IPAddress entry); [done|].
  by destruct (hostTree hdb).
Qed.

Lemma removeLocked_set_mu (m : RWMutex) (addr : string) (hdb : HostDB) :
  removeLocked addr (set_mu m hdb) =
    match removeLocked addr hdb with
    | Returned a hdb' => Returned a (set_mu m hdb')
    | Blocked hdb' => Blocked (set_mu m hdb')
    | Panicked hdb' => Panicked (set_mu m hdb')
    end.
Proof.
  unfold removeLocked; simpl.
  destruct (activeHosts hdb !! addr); [done|].
  by destruct (inactiveHosts hdb !! addr).
Qed.

(** On a free mutex [Insert] is [insert], and [Remove] is its body. *)
Lemma Insert_free (entry : HostEntry) (hdb : HostDB) :
  mu hdb = unlocked → Insert entry hdb = insert entry hdb.
Proof.
  intros Hmu. unfold Insert. rewrite locked_free, insert_set_mu by done.
  unfold insert.
  destruct (activeHosts hdb !! IPAddress entry).
  - by rewrite Unlock_locked.
  - destruct hdb as [? ? t ? ? ?]; simpl in *; subst.
    by destruct t.
Qed.

Lemma Remove_free (addr : string) (hdb : HostDB) :
  mu hdb = unlocked → Remove addr hdb = removeLocked addr hdb.
Proof.
  intros Hmu. unfold Remove. rewrite locked_free, removeLocked_set_mu by done.
  unfold removeLocked.
  destruct (activeHosts hdb !! addr).
  - destruct hdb; simpl in *; subst; reflexivity.
  - destruct (inactiveHosts hdb !! addr).
    + destruct hdb; simpl in *; subst; reflexivity.
    + by rewrite Unlock_locked.
Qed.

(** ** Duplicates *)

(** C3. Inserting an entry whose address is a key of [activeHosts] returns
    the duplicate error and leaves the whole directory as it was: the tree,
    both maps and [recentBlock]. This holds of [insert] in every state and of
    [Insert] whenever its lock can be taken. *)
Theorem Insert_duplicate (entry : HostEntry) (hdb : HostDB) :
  is_Some (activeHosts hdb !! IPAddress entry) →
  insert entry hdb = Returned (Some ErrDuplicate) hdb ∧
  (mu hdb = unlocked → Insert entry hdb = Returned (Some ErrDuplicate) hdb).
Proof.
  intros [p Hp].
  assert (insert entry hdb = Returned (Some ErrDuplicate) hdb) as Hins.
  { unfold insert. by rewrite Hp. }
  split; [done|]. intros Hmu. by rewrite Insert_free.
Qed.

(** ** Removal *)

(** C9. [FlagHost] is [Remove]: the same result and the same directory
    afterwards, for every address and every directory. *)
Theorem FlagHost_is_Remove (addr : string) (hdb : HostDB) :
  FlagHost addr hdb = Remove addr hdb.
Proof. reflexivity. Qed.

(** ** What no call touches *)

Lemma keeps_ret {X A} (f : HostDB → X) (a : A) : keeps f (ret a).
Proof. by intros hdb. Qed.

Lemma keeps_bind {X A B} (f : HostDB → X) (m : M A) (k : A → M B) :
  keeps f m → (∀ a, keeps f (k a)) → keeps f (bind m k).
Proof.
  intros Hm Hk hdb. unfold bind.
  specialize (Hm hdb). destruct (m hdb) as [a hdb'| |]; simpl in *; try done.
  by rewrite Hk.
Qed.

Lemma keeps_orReturn {X} (f : HostDB → X) (m k : M (option error)) :
  keeps f m → keeps f k → keeps f (orReturn m k).
Proof.
  intros Hm Hk. apply keeps_bind; [done|].
  intros [e|]; [apply keeps_ret | done].
Qed.

Lemma keeps_locked {X A} (f : HostDB → X) (lock : M unit)
    (unlock : HostDB → HostDB) (body : M A) :
  keeps f lock → (∀ hdb, f (unlock hdb) = f hdb) → keeps f body →
  keeps f (locked lock unlock body).
Proof.
  intros Hl Hu Hb hdb. unfold locked.
  specialize (Hl hdb). destruct (lock hdb) as [[] hdb1| |]; simpl in *; try done.
  specialize (Hb hdb1).
  destruct (body hdb1) as [a hdb2| |]; simpl in *; rewrite ?Hu; congruence.
Qed.

Lemma keeps_recentBlock_Lock : keeps recentBlock Lock.
Proof. intros hdb. unfold Lock. by case_match. Qed.

Lemma keeps_recentBlock_RLock : keeps recentBlock RLock.
Proof. intros hdb. unfold RLock. by case_match. Qed.

Lemma keeps_recentBlock_insert entry : keeps recentBlock (insert entry).
Proof. intros hdb. unfold insert. by repeat case_match. Qed.

Lemma keeps_recentBlock_remove addr : keeps recentBlock (removeLocked addr).
Proof. intros hdb. unfold removeLocked. by repeat case_match. Qed.

Lemma keeps_recentBlock_Remove addr : keeps recentBlock (Remove addr).
Proof.
  apply keeps_locked; [apply keeps_recentBlock_Lock | done |].
  apply keeps_recentBlock_remove.
Qed.

Lemma keeps_recentBlock_rewindEntries es : keeps recentBlock (rewindEntries es).
Proof.
  induction es as [|e es IH]; simpl; [apply keeps_ret|].
  apply keeps_orReturn; [apply keeps_recentBlock_Remove | done].
Qed.

Lemma keeps_recentBlock_rewindBlocks h bs : keeps recentBlock (rewindBlocks h bs).
Proof.
  induction bs as [|b bs IH]; simpl; [apply keeps_ret|].
  destruct (findHostAnnouncements h b); [|apply keeps_ret].
  apply keeps_orReturn; [apply keeps_recentBlock_rewindEntries | done].
Qed.

Lemma keeps_recentBlock_applyEntries es : keeps recentBlock (applyEntries es).
Proof.
  induction es as [|e es IH]; simpl; [apply keeps_ret|].
  apply keeps_orReturn; [apply keeps_recentBlock_insert | done].
Qed.

Lemma keeps_recentBlock_applyBlocks h bs : keeps recentBlock (applyBlocks h bs).
Proof.
  induction bs as [|b bs IH]; simpl; [apply keeps_ret|].
  destruct (findHostAnnouncements h b); [|apply keeps_ret].
  apply keeps_orReturn; [apply keeps_recentBlock_applyEntries | done].
Qed.

(** C5, as the code has it. No call changes [recentBlock] after construction:
    not [Insert], [Remove], [FlagHost] or [RandomHost], and not [Update]
    either, whether it succeeds, fails, or does not return. *)
Theorem recentBlock_is_never_assigned (hdb : HostDB) :
  (∀ entry, recentBlock (final (Insert entry hdb)) = recentBlock hdb) ∧
  (∀ addr, recentBlock (final (Remove addr hdb)) = recentBlock hdb) ∧
  (∀ addr, recentBlock (final (FlagHost addr hdb)) = recentBlock hdb) ∧
  (∀ reader, recentBlock (final (RandomHost reader hdb)) = recentBlock hdb) ∧
  (∀ h rewound applied,
     recentBlock (final (Update h rewound applied hdb)) = recentBlock hdb).
Proof.
  repeat split.
  - intros entry. revert hdb. change (keeps recentBlock (Insert entry)).
    apply keeps_locked; [apply keeps_recentBlock_Lock | done |].
    apply keeps_recentBlock_insert.
  - intros addr. apply keeps_recentBlock_Remove.
  - intros addr. apply keeps_recentBlock_Remove.
  - intros reader. revert hdb. change (keeps recentBlock (RandomHost reader)).
    apply keeps_locked; [apply keeps_recentBlock_RLock | done |].
    intros hdb. by repeat case_match.
  - intros h rewound applied. revert hdb.
    change (keeps recentBlock (Update h rewound applied)).
    apply keeps_locked; [apply keeps_recentBlock_Lock | done |].
    apply keeps_orReturn;
      [apply keeps_recentBlock_rewindBlocks | apply keeps_recentBlock_applyBlocks].
Qed.

(** ** Drawing a host *)

(** [RandomHost] on a directory that no writer holds. *)
Lemma RandomHost_unlocked (reader : Z → result Z) (hdb : HostDB) :
  writer (mu hdb) = false →
  RandomHost reader hdb =
    if Nat.eqb (size (activeHosts hdb)) 0
    then Returned (zeroEntry, Some ErrNoHosts) hdb
    else
      match hostTree hdb with
      | nilNode => Panicked hdb
      | _ =>
          match randInt reader (drawBound hdb) with
          | DrawPanic => Panicked hdb
          | DrawErr e => Returned (zeroEntry, Some e) hdb
          | Draw n =>
              Returned (entryAtWeight (Z.to_N (int64 n)) (hostTree hdb)) hdb
          end
      end.
Proof.
  destruct hdb as [st rb t a i [w r]]; simpl. intros ->.
  unfold RandomHost, locked, RLock, RUnlock, drawBound; simpl.
  destruct (Nat.eqb (size a) 0); [done|].
  destruct t as [|p wt e lt rt|p wt lt rt]; [done|..];
    simpl weightOf; by destruct (randInt reader (int64 (Z.of_N wt))).
Qed.

(** The only error of [entryAtWeight] is its own. *)
Lemma entryAtWeight_error (w : N) (hn : hostNode) :
  (entryAtWeight w hn).2 = None ∨ (entryAtWeight w hn).2 = Some ErrWeight.
Proof.
  revert w.
  induction hn as [|p a e l IHl r IHr|p a l IHl r IHr]; intros w; simpl;
    [by right| |].
  - destruct (w <? entryWeight e); [by left|].
    destruct (w - entryWeight e <? weightOf l); auto.
  - destruct (w <? weightOf l); auto.
Qed.

Lemma randInt_error (reader : Z → result Z) (max : Z) (e : error) :
  randInt reader max = DrawErr e → ∃ msg, e = ErrReader msg.
Proof.
  unfold randInt. destruct (max <=? 0)%Z; [done|].
  destruct (max =? 1)%Z; [done|].
  destruct (reader max); [done|]. intros [= <-]. eauto.
Qed.

(** C7. On a directory that no writer holds, [RandomHost] returns the
    no-hosts error exactly when [activeHosts] is empty; it then returns the
    zero entry and leaves the directory as it was. *)
Theorem RandomHost_no_hosts (reader : Z → result Z) (hdb : HostDB) :
  writer (mu hdb) = false →
  ((∃ h hdb', RandomHost reader hdb = Returned (h, Some ErrNoHosts) hdb')
     ↔ activeHosts hdb = ∅) ∧
  (activeHosts hdb = ∅ →
     RandomHost reader hdb = Returned (zeroEntry, Some ErrNoHosts) hdb).
Proof.
  intros Hw. rewrite RandomHost_unlocked by done.
  assert (activeHosts hdb = ∅ →
          Nat.eqb (size (activeHosts hdb)) 0 = true) as Hempty.
  { intros ->. by rewrite map_size_empty. }
  split; [split|].
  - destruct (Nat.eqb (size (activeHosts hdb)) 0) eqn:Hsz.
    + intros _. apply map_size_empty_iff. by apply Nat.eqb_eq.
    + intros (h & hdb' & Hr). exfalso.
      assert (match randInt reader (drawBound hdb) with
              | DrawPanic => Panicked hdb
              | DrawErr e => Returned (zeroEntry, Some e) hdb
              | Draw n =>
                  Returned (entryAtWeight (Z.to_N (int64 n)) (hostTree hdb)) hdb
              end ≠ Returned (h, Some ErrNoHosts) hdb') as Hdraw.
      { destruct (randInt _ _) as [|err|n] eqn:Hd; [done| |].
        - apply randInt_error in Hd as [msg ->]. congruence.
        - pose proof (entryAtWeight_error (Z.to_N (int64 n)) (hostTree hdb))
            as He.
          destruct (entryAtWeight (Z.to_N (int64 n)) (hostTree hdb))
            as [h' err'].
          simpl in He. destruct He; congruence. }
      by destruct (hostTree hdb).
  - intros He. rewrite (Hempty He). eauto.
  - intros He. by rewrite (Hempty He).
Qed.

Lemma consistent_ownWeights (hn : hostNode) :
  consistent hn → weightOf hn = ownWeights hn.
Proof.
  unfold ownWeights, entries.
  induction hn as [|p w e l IHl r IHr|p w l IHl r IHr]; simpl; [done|..];
    intros (-> & Hl & Hr);
    rewrite IHl, IHr by done;
    rewrite !fmap_app; unfold sumN; rewrite foldr_app;
    generalize (entryWeight <$> (nodes r).*2) as ys;
    generalize (entryWeight <$> (nodes l).*2) as xs;
    intros xs ys; induction xs as [|x xs IH]; simpl in *; lia.
Qed.

Lemma sumN_zero (l : list N) : Forall (λ x, x = 0) l → sumN l = 0.
Proof. induction 1 as [|x l -> _ IH]; simpl; [done|]. by rewrite IH. Qed.

(** C10. Past its emptiness check, [RandomHost] returns only when the
    aggregate weight of the root is strictly positive.  When [activeHosts] is
    not empty and every entry of the (weight-consistent) tree has own weight
    zero, the bound of the draw is 0 and the call panics: it returns neither
    an entry nor an error. *)
Theorem RandomHost_needs_positive_weight (reader : Z → result Z) (hdb : HostDB) :
  writer (mu hdb) = false →
  activeHosts hdb ≠ ∅ →
  (∀ r hdb', RandomHost reader hdb = Returned r hdb' → 0 < totalWeight hdb) ∧
  (consistent (hostTree hdb) →
   Forall (λ e, entryWeight e = 0) (entries (hostTree hdb)) →
   totalWeight hdb = 0 ∧ drawBound hdb = 0%Z ∧
   RandomHost reader hdb = Panicked hdb).
Proof.
  intros Hw Hne. rewrite RandomHost_unlocked by done.
  assert (Nat.eqb (size (activeHosts hdb)) 0 = false) as ->.
  { apply Nat.eqb_neq. by rewrite map_size_empty_iff. }
  unfold totalWeight, drawBound, randInt. split.
  - intros r hdb'.
    destruct (hostTree hdb) as [|p w e l rt|p w l rt]; [done|..]; simpl;
      (destruct (int64 (Z.of_N w) <=? 0)%Z eqn:Hb; [done|]); intros _;
      (destruct (N.eq_dec w 0) as [->|]; [done|lia]).
  - intros Hc Hz.
    assert (weightOf (hostTree hdb) = 0) as Hzero.
    { rewrite consistent_ownWeights by done. apply sumN_zero.
      unfold ownWeights. by apply Forall_fmap. }
    rewrite Hzero. split; [done|]. split; [done|].
    destruct (hostTree hdb) as [|p w e l rt|p w l rt]; [done|..];
      simpl in Hzero; by subst.
Qed.

(** ** The lock of [Update] *)

Lemma rewindEntries_held (entry : HostEntry) (es : list HostEntry) (hdb : HostDB) :
  writer (mu hdb) = true → rewindEntries (entry :: es) hdb = Blocked hdb.
Proof.
  intros Hw. simpl. unfold orReturn, bind, Remove.
  by rewrite locked_held.
Qed.

Lemma rewindBlocks_held (h : BlockHeight) (pre post : list Block) (b : Block)
    (entry : HostEntry) (es : list HostEntry) (hdb : HostDB) :
  writer (mu hdb) = true →
  Forall (λ b', findHostAnnouncements h b' = Ok []) pre →
  findHostAnnouncements h b = Ok (entry :: es) →
  rewindBlocks h (pre ++ b :: post) hdb = Blocked hdb.
Proof.
  intros Hw Hpre Hb. induction Hpre as [|b' pre Hb' _ IH]; simpl.
  - rewrite Hb. unfold orReturn, bind. by rewrite rewindEntries_held.
  - rewrite Hb'. simpl. unfold orReturn, bind, ret. exact IH.
Qed.

(** C4, as the code has it. [Update] takes the write lock at entry and then
    rewinds through [Remove], which takes the same lock again.  So as soon as
    a rewound block announces a host, the call waits for ever on the lock it
    holds itself: no removal of the batch is carried out, the lock is never
    released, and [Update] does not return. *)
Theorem Update_rewind_waits_on_its_own_lock (h : BlockHeight)
    (pre post applied : list Block) (b : Block)
    (entry : HostEntry) (es : list HostEntry) (hdb : HostDB) :
  mu hdb = unlocked →
  Forall (λ b', findHostAnnouncements h b' = Ok []) pre →
  findHostAnnouncements h b = Ok (entry :: es) →
  Update h (pre ++ b :: post) applied hdb =
    Blocked (set_mu (mkRWMutex true 0) hdb).
Proof.
  intros Hmu Hpre Hb. unfold Update. rewrite locked_free by done.
  unfold orReturn, bind.
  by rewrite (rewindBlocks_held h pre post b entry es).
Qed.

(** ** The tree: nodes and weights under insertion and removal *)

Lemma sumN_app (xs ys : list N) : sumN (xs ++ ys) = sumN xs + sumN ys.
Proof. induction xs as [|x xs IH]; simpl in *; lia. Qed.

Lemma sumN_Permutation (xs ys : list N) : xs ≡ₚ ys → sumN xs = sumN ys.
Proof. induction 1; simpl in *; lia. Qed.

Lemma nil_or_not (hn : hostNode) : hn = nilNode ∨ hn ≠ nilNode.
Proof. destruct hn; by eauto. Qed.

(** The three places where [hn_insert] and [graft] put what they are given:
    a free left slot, a free right slot, or further down on the left. *)
Lemma hn_insert_right (p : nat) (entry : HostEntry) (q : nat) (w : N)
    (e : HostEntry) (l : hostNode) :
  l ≠ nilNode →
  hn_insert p entry (Node q w e l nilNode)
  = Node q (w + entryWeight entry) e l (createNode p entry).
Proof. by destruct l. Qed.

Lemma hn_insert_deep (p : nat) (entry : HostEntry) (q : nat) (w : N)
    (e : HostEntry) (l r : hostNode) :
  l ≠ nilNode → r ≠ nilNode →
  hn_insert p entry (Node q w e l r)
  = Node q (w + entryWeight entry) e (hn_insert p entry l) r.
Proof. destruct l; [done|..]; by destruct r. Qed.

Lemma hn_insert_right_vacated (p : nat) (entry : HostEntry) (q : nat) (w : N)
    (l : hostNode) :
  l ≠ nilNode →
  hn_insert p entry (vacated q w l nilNode)
  = vacated q (w + entryWeight entry) l (createNode p entry).
Proof. by destruct l. Qed.

Lemma hn_insert_deep_vacated (p : nat) (entry : HostEntry) (q : nat) (w : N)
    (l r : hostNode) :
  l ≠ nilNode → r ≠ nilNode →
  hn_insert p entry (vacated q w l r)
  = vacated q (w + entryWeight entry) (hn_insert p entry l) r.
Proof. destruct l; [done|..]; by destruct r. Qed.

Lemma graft_right (sub : hostNode) (q : nat) (w : N) (e : HostEntry)
    (l : hostNode) :
  l ≠ nilNode →
  graft sub (Node q w e l nilNode) = Node q (w + weightOf sub) e l sub.
Proof. by destruct l. Qed.

Lemma graft_deep (sub : hostNode) (q : nat) (w : N) (e : HostEntry)
    (l r : hostNode) :
  l ≠ nilNode → r ≠ nilNode →
  graft sub (Node q w e l r) = Node q (w + weightOf sub) e (graft sub l) r.
Proof. destruct l; [done|..]; by destruct r. Qed.

Lemma graft_right_vacated (sub : hostNode) (q : nat) (w : N) (l : hostNode) :
  l ≠ nilNode →
  graft sub (vacated q w l nilNode) = vacated q (w + weightOf sub) l sub.
Proof. by destruct l. Qed.

Lemma graft_deep_vacated (sub : hostNode) (q : nat) (w : N) (l r : hostNode) :
  l ≠ nilNode → r ≠ nilNode →
  graft sub (vacated q w l r) = vacated q (w + weightOf sub) (graft sub l) r.
Proof. destruct l; [done|..]; by destruct r. Qed.

(** Splits a goal about [hn_insert] or [graft] at a node with children [l]
    and [r] into the three places. *)
Ltac places l r :=
  let Hl := fresh "Hl" in
  let Hr := fresh "Hr" in
  destruct (nil_or_not l) as [->|Hl];
    [ cbn [hn_insert graft]
    | destruct (nil_or_not r) as [->|Hr];
      [ rewrite ?hn_insert_right, ?hn_insert_right_vacated,
                ?graft_right, ?graft_right_vacated by done
      | rewrite ?hn_insert_deep, ?hn_insert_deep_vacated,
                ?graft_deep, ?graft_deep_vacated by done ] ].

Lemma hn_insert_not_nil (p : nat) (entry : HostEntry) (hn : hostNode) :
  hn ≠ nilNode → hn_insert p entry hn ≠ nilNode.
Proof. destruct hn as [|q w e l r|q w l r]; [done|..]; intros _; by places l r. Qed.

Lemma nodes_hn_insert (p : nat) (entry : HostEntry) (hn : hostNode) :
  hn ≠ nilNode → nodes (hn_insert p entry hn) ≡ₚ (p, entry) :: nodes hn.
Proof.
  induction hn as [|q w e l IHl r IHr|q w l IHl r IHr]; [done|..]; intros _;
    places l r; cbn [nodes createNode]; rewrite ?IHl by done;
    solve_Permutation.
Qed.

Lemma ptrs_hn_insert (p : nat) (entry : HostEntry) (hn : hostNode) :
  hn ≠ nilNode → ptrs (hn_insert p entry hn) ≡ₚ p :: ptrs hn.
Proof.
  induction hn as [|q w e l IHl r IHr|q w l IHl r IHr]; [done|..]; intros _;
    places l r; cbn [ptrs createNode]; rewrite ?IHl by done;
    solve_Permutation.
Qed.

Lemma weightOf_hn_insert (p : nat) (entry : HostEntry) (hn : hostNode) :
  hn ≠ nilNode →
  weightOf (hn_insert p entry hn) = weightOf hn + entryWeight entry.
Proof.
  destruct hn as [|q w e l r|q w l r]; [done|..]; intros _; by places l r.
Qed.

Lemma consistent_hn_insert (p : nat) (entry : HostEntry) (hn : hostNode) :
  consistent hn → consistent (hn_insert p entry hn).
Proof.
  induction hn as [|q w e l IHl r IHr|q w l IHl r IHr]; [done|..];
    intros (Hw & Hl & Hr); places l r;
    cbn [consistent createNode weightOf] in *;
    rewrite ?weightOf_hn_insert by done;
    (split; [lia|]); split; first [by apply IHl | done | repeat split; lia].
Qed.

Lemma occupied_hn_insert (p : nat) (entry : HostEntry) (hn : hostNode) :
  occupied hn → occupied (hn_insert p entry hn).
Proof.
  induction hn as [|q w e l IHl r IHr|q w l IHl r IHr]; [done| |done].
  intros [Hl Hr]. places l r; cbn [occupied createNode]; by auto.
Qed.

Lemma rootOnly_hn_insert (p : nat) (entry : HostEntry) (hn : hostNode) :
  rootOnly hn → rootOnly (hn_insert p entry hn).
Proof.
  destruct hn as [|q w e l r|q w l r]; [done|..]; intros [Hl Hr];
    places l r; cbn [rootOnly occupied createNode];
    (split; [|done]); first [by apply occupied_hn_insert | done].
Qed.

Lemma nodes_graft (sub hn : hostNode) :
  nodes (graft sub hn) ≡ₚ nodes hn ++ nodes sub.
Proof.
  induction hn as [|q w e l IHl r IHr|q w l IHl r IHr]; [done|..];
    places l r; cbn [nodes]; rewrite ?IHl; solve_Permutation.
Qed.

Lemma ptrs_graft (sub hn : hostNode) :
  ptrs (graft sub hn) ≡ₚ ptrs hn ++ ptrs sub.
Proof.
  induction hn as [|q w e l IHl r IHr|q w l IHl r IHr]; [done|..];
    places l r; cbn [ptrs]; rewrite ?IHl; solve_Permutation.
Qed.

Lemma weightOf_graft (sub hn : hostNode) :
  weightOf (graft sub hn) = weightOf hn + weightOf sub.
Proof. destruct hn as [|q w e l r|q w l r]; [done|..]; by places l r. Qed.

Lemma consistent_graft (sub hn : hostNode) :
  consistent sub → consistent hn → consistent (graft sub hn).
Proof.
  intros Hs.
  induction hn as [|q w e l IHl r IHr|q w l IHl r IHr]; [done|..];
    intros (Hw & Hl & Hr); places l r;
    cbn [consistent weightOf] in *;
    rewrite ?weightOf_graft;
    (split; [lia|]); (split; [|done]); first [by apply IHl | done].
Qed.

Lemma occupied_graft (sub hn : hostNode) :
  occupied sub → occupied hn → occupied (graft sub hn).
Proof.
  intros Hs.
  induction hn as [|q w e l IHl r IHr|q w l IHl r IHr]; [done| |done].
  intros [Hl Hr]. places l r; cbn [occupied]; by auto.
Qed.

Lemma promote_cases (l r : hostNode) :
  promote l r = r ∧ l = nilNode ∨
  promote l r = l ∧ r = nilNode ∨
  promote l r = graft r l.
Proof. destruct l; [by left|..]; destruct r; by eauto. Qed.

Lemma nodes_promote (l r : hostNode) :
  nodes (promote l r) ≡ₚ nodes l ++ nodes r.
Proof.
  destruct (promote_cases l r) as [[-> ->]|[[-> ->]| ->]];
    [done | by rewrite app_nil_r | apply nodes_graft].
Qed.

Lemma ptrs_promote (l r : hostNode) :
  ptrs (promote l r) ≡ₚ ptrs l ++ ptrs r.
Proof.
  destruct (promote_cases l r) as [[-> ->]|[[-> ->]| ->]];
    [done | by rewrite app_nil_r | apply ptrs_graft].
Qed.

Lemma weightOf_promote (l r : hostNode) :
  weightOf (promote l r) = weightOf l + weightOf r.
Proof.
  destruct (promote_cases l r) as [[-> ->]|[[-> ->]| ->]];
    [done | simpl; lia | apply weightOf_graft].
Qed.

Lemma consistent_promote (l r : hostNode) :
  consistent l → consistent r → consistent (promote l r).
Proof.
  intros Hl Hr.
  destruct (promote_cases l r) as [[-> ->]|[[-> ->]| ->]];
    [done | done | by apply consistent_graft].
Qed.

Lemma occupied_promote (l r : hostNode) :
  occupied l → occupied r → occupied (promote l r).
Proof.
  intros Hl Hr.
  destruct (promote_cases l r) as [[-> ->]|[[-> ->]| ->]];
    [done | done | by apply occupied_graft].
Qed.

(** What [detach] takes out is one node of the given address; the own weight
    it reports is the weight of the entry of that node. *)
Lemma nodes_detach (p : nat) (hn hn' : hostNode) (own : N) :
  detach p hn = Some (own, hn') →
  ∃ e, own = entryWeight e ∧ nodes hn ≡ₚ (p, e) :: nodes hn' ∧
       ptrs hn ≡ₚ p :: ptrs hn'.
Proof.
  revert hn' own.
  induction hn as [|q w e l IHl r IHr|q w l IHl r IHr]; [done|..];
    intros hn' own; simpl.
  - destruct (decide (q = p)) as [->|Hne].
    { intros [= <- <-]. exists e. split; [done|].
      by rewrite nodes_promote, ptrs_promote. }
    destruct (detach p l) as [[ownl l']|].
    { intros [= <- <-]. destruct (IHl l' ownl eq_refl) as (x & -> & Hx & Hp).
      exists x. split; [done|]. simpl. rewrite Hx, Hp.
      split; solve_Permutation. }
    destruct (detach p r) as [[ownr r']|]; [|done].
    intros [= <- <-]. destruct (IHr r' ownr eq_refl) as (x & -> & Hx & Hp).
    exists x. split; [done|]. simpl. rewrite Hx, Hp.
    split; solve_Permutation.
  - destruct (detach p l) as [[ownl l']|].
    { intros [= <- <-]. destruct (IHl l' ownl eq_refl) as (x & -> & Hx & Hp).
      exists x. split; [done|]. simpl. rewrite Hx, Hp.
      split; solve_Permutation. }
    destruct (detach p r) as [[ownr r']|]; [|done].
    intros [= <- <-]. destruct (IHr r' ownr eq_refl) as (x & -> & Hx & Hp).
    exists x. split; [done|]. simpl. rewrite Hx, Hp.
    split; solve_Permutation.
Qed.

Lemma consistent_detach (p : nat) (hn hn' : hostNode) (own : N) :
  consistent hn → detach p hn = Some (own, hn') →
  consistent hn' ∧ weightOf hn = own + weightOf hn'.
Proof.
  revert hn' own.
  induction hn as [|q w e l IHl r IHr|q w l IHl r IHr]; [done|..];
    intros hn' own (Hw & Hl & Hr); simpl.
  - destruct (decide (q = p)) as [->|Hne].
    { intros [= <- <-]. split; [by apply consistent_promote|].
      rewrite weightOf_promote. simpl. lia. }
    destruct (detach p l) as [[ownl l']|].
    { intros [= <- <-]. destruct (IHl l' ownl Hl eq_refl) as (Hl' & Hwl).
      simpl. repeat split; try done; lia. }
    destruct (detach p r) as [[ownr r']|]; [|done].
    intros [= <- <-]. destruct (IHr r' ownr Hr eq_refl) as (Hr' & Hwr).
    simpl. repeat split; try done; lia.
  - destruct (detach p l) as [[ownl l']|].
    { intros [= <- <-]. destruct (IHl l' ownl Hl eq_refl) as (Hl' & Hwl).
      simpl. repeat split; try done; lia. }
    destruct (detach p r) as [[ownr r']|]; [|done].
    intros [= <- <-]. destruct (IHr r' ownr Hr eq_refl) as (Hr' & Hwr).
    simpl. repeat split; try done; lia.
Qed.

Lemma occupied_detach (p : nat) (hn hn' : hostNode) (own : N) :
  occupied hn → detach p hn = Some (own, hn') → occupied hn'.
Proof.
  revert hn' own.
  induction hn as [|q w e l IHl r IHr|q w l IHl r IHr]; [done| |done].
  intros hn' own [Hl Hr]. simpl.
  destruct (decide (q = p)) as [->|Hne].
  { intros [= <- <-]. by apply occupied_promote. }
  destruct (detach p l) as [[ownl l']|] eqn:Hdl.
  { intros [= <- <-]. simpl. split; [|done]. by eapply IHl. }
  destruct (detach p r) as [[ownr r']|] eqn:Hdr; [|done].
  intros [= <- <-]. simpl. split; [done|]. by eapply IHr.
Qed.

(** [detach] finds every node that holds a host. *)
Lemma detach_None (p : nat) (hn : hostNode) :
  detach p hn = None → p ∉ (nodes hn).*1.
Proof.
  induction hn as [|q w e l IHl r IHr|q w l IHl r IHr]; simpl.
  - intros _. apply not_elem_of_nil.
  - destruct (decide (q = p)) as [->|Hne]; [done|].
    destruct (detach p l) as [[ownl l']|]; [done|].
    destruct (detach p r) as [[ownr r']|]; [done|].
    intros _. rewrite fmap_app, not_elem_of_cons, not_elem_of_app.
    split; [done|]. split; [by apply IHl | by apply IHr].
  - destruct (detach p l) as [[ownl l']|]; [done|].
    destruct (detach p r) as [[ownr r']|]; [done|].
    intros _. rewrite fmap_app, not_elem_of_app.
    split; [by apply IHl | by apply IHr].
Qed.

(** The nodes that hold a host are among the nodes of the tree. *)
Lemma nodes_ptrs (p : nat) (e : HostEntry) (hn : hostNode) :
  (p, e) ∈ nodes hn → p ∈ ptrs hn.
Proof.
  induction hn as [|q w x l IHl r IHr|q w l IHl r IHr]; simpl.
  - by intros ?%elem_of_nil.
  - rewrite elem_of_cons, !elem_of_app.
    intros [[= -> ->]|[Hin|Hin]]; [by left|right..]; rewrite elem_of_app;
      by auto.
  - rewrite elem_of_cons, !elem_of_app.
    intros [Hin|Hin]; right; by auto.
Qed.

Lemma deref_Some (p : nat) (x : HostEntry) (hn : hostNode) :
  deref p hn = Some x → (p, x) ∈ nodes hn.
Proof.
  induction hn as [|q w e l IHl r IHr|q w l IHl r IHr]; simpl; [done|..].
  - destruct (decide (q = p)) as [->|Hne]; [intros [= ->]; by left|].
    intros Hd. right. apply elem_of_app.
    destruct (deref p l); [left; by apply IHl | right; by apply IHr].
  - intros Hd. apply elem_of_app.
    destruct (deref p l); [left; by apply IHl | right; by apply IHr].
Qed.

(** A location that the tree has leads to the entry stored there. *)
Lemma deref_nodes (p : nat) (e : HostEntry) (hn : hostNode) :
  NoDup (ptrs hn) → (p, e) ∈ nodes hn → deref p hn = Some e.
Proof.
  induction hn as [|q w x l IHl r IHr|q w l IHl r IHr]; simpl.
  { intros _ Hin. by apply elem_of_nil in Hin. }
  - intros Hnd Hin.
    apply NoDup_cons in Hnd as [Hq Hnd].
    apply NoDup_app in Hnd as (Hndl & Hlr & Hndr).
    apply not_elem_of_app in Hq as [Hql Hqr].
    apply elem_of_cons in Hin as [[= -> ->]|Hin].
    { by rewrite decide_True. }
    assert (q ≠ p) as Hne.
    { intros ->. apply elem_of_app in Hin as [Hin|Hin].
      - apply Hql. by eapply nodes_ptrs.
      - apply Hqr. by eapply nodes_ptrs. }
    rewrite decide_False by done.
    apply elem_of_app in Hin as [Hin|Hin].
    + by rewrite (IHl Hndl Hin).
    + destruct (deref p l) as [y|] eqn:Hy; [|by apply IHr].
      exfalso. apply (Hlr p).
      * eapply nodes_ptrs. by apply deref_Some.
      * by eapply nodes_ptrs.
  - intros Hnd Hin.
    apply NoDup_cons in Hnd as [Hq Hnd].
    apply NoDup_app in Hnd as (Hndl & Hlr & Hndr).
    apply elem_of_app in Hin as [Hin|Hin].
    + by rewrite (IHl Hndl Hin).
    + destruct (deref p l) as [y|] eqn:Hy; [|by apply IHr].
      exfalso. apply (Hlr p).
      * eapply nodes_ptrs. by apply deref_Some.
      * by eapply nodes_ptrs.
Qed.

(** What [hn_remove] does to a tree that holds a host at [p]: that one node
    leaves the nodes that hold a host, all others stay; no location is
    shared afterwards either; the root is the node it was; and the
    aggregates stay consistent, the total falling by the own weight of the
    host. *)
Lemma hn_remove_node (p : nat) (e : HostEntry) (hn : hostNode) :
  NoDup (ptrs hn) → (p, e) ∈ nodes hn →
  nodes hn ≡ₚ (p, e) :: nodes (hn_remove p hn) ∧
  NoDup (ptrs (hn_remove p hn)) ∧
  (consistent hn →
   consistent (hn_remove p hn) ∧
   weightOf hn = entryWeight e + weightOf (hn_remove p hn)) ∧
  (rootOnly hn → rootOnly (hn_remove p hn)).
Proof.
  intros Hnd Hin.
  assert (∀ y, (p, y) ∈ nodes hn → y = e) as Hsame.
  { intros y Hy. apply (deref_nodes _ _ _ Hnd) in Hy.
    rewrite (deref_nodes _ _ _ Hnd Hin) in Hy. congruence. }
  assert (∀ own sub sub', detach p sub = Some (own, sub') →
            (∀ y, (p, y) ∈ nodes sub → (p, y) ∈ nodes hn) →
            own = entryWeight e ∧ nodes sub ≡ₚ (p, e) :: nodes sub' ∧
            ptrs sub ≡ₚ p :: ptrs sub') as Hsub.
  { intros own sub sub' Hd Hincl.
    destruct (nodes_detach _ _ _ _ Hd) as (y & -> & Hy & Hp).
    assert (y = e) as ->; [|done].
    apply Hsame, Hincl. rewrite Hy. by left. }
  destruct hn as [|q w x l r|q w l r]; simpl in *.
  { by apply elem_of_nil in Hin. }
  - apply NoDup_cons in Hnd as [Hq Hnd].
    apply NoDup_app in Hnd as (Hndl & Hlr & Hndr).
    destruct (decide (q = p)) as [->|Hne].
    { assert (x = e) as -> by (apply Hsame; by left).
      simpl. split; [done|].
      split; [apply NoDup_cons; split; [done|by apply NoDup_app]|].
      split; [|done].
      intros (-> & Hl & Hr). simpl. repeat split; try done; lia. }
    apply elem_of_cons in Hin as [[= <- _]|Hin]; [done|].
    destruct (detach p l) as [[own l']|] eqn:Hdl.
    { destruct (Hsub _ _ _ Hdl) as (-> & Hy & Hp).
      { intros y Hy. right. apply elem_of_app. by left. }
      simpl. split; [rewrite Hy; solve_Permutation|].
      split.
      { apply NoDup_cons. split.
        - intros Hq'. apply Hq. rewrite Hp.
          apply elem_of_app in Hq' as [Hq'|Hq']; apply elem_of_app;
            [left; by right | by right].
        - apply NoDup_app. rewrite Hp in Hndl.
          apply NoDup_cons in Hndl as [_ Hndl]. split; [done|]. split; [|done].
          intros z Hz. apply Hlr. rewrite Hp. by right. }
      split.
      { intros (-> & Hl & Hr).
        destruct (consistent_detach _ _ _ _ Hl Hdl) as [Hl' Hw].
        simpl. repeat split; try done; lia. }
      intros [Hl Hr]. split; [|done]. exact (occupied_detach _ _ _ _ Hl Hdl). }
    destruct (detach p r) as [[own r']|] eqn:Hdr; last first.
    { exfalso. apply elem_of_app in Hin as [Hin|Hin].
      - apply (detach_None _ _ Hdl).
        by apply (list_elem_of_fmap_2 fst _ (p, e)) in Hin.
      - apply (detach_None _ _ Hdr).
        by apply (list_elem_of_fmap_2 fst _ (p, e)) in Hin. }
    destruct (Hsub _ _ _ Hdr) as (-> & Hy & Hp).
    { intros y Hy. right. apply elem_of_app. by right. }
    simpl. split; [rewrite Hy; solve_Permutation|].
    split.
    { apply NoDup_cons. split.
      - intros Hq'. apply Hq. rewrite Hp.
        apply elem_of_app in Hq' as [Hq'|Hq']; apply elem_of_app;
          [by left | right; by right].
      - apply NoDup_app. rewrite Hp in Hndr.
        apply NoDup_cons in Hndr as [_ Hndr]. split; [done|]. split; [|done].
        intros z Hz Hz'. apply (Hlr z Hz). rewrite Hp. by right. }
    split.
    { intros (-> & Hl & Hr).
      destruct (consistent_detach _ _ _ _ Hr Hdr) as [Hr' Hw].
      simpl. repeat split; try done; lia. }
    intros [Hl Hr]. split; [done|]. exact (occupied_detach _ _ _ _ Hr Hdr).
  - apply NoDup_cons in Hnd as [Hq Hnd].
    apply NoDup_app in Hnd as (Hndl & Hlr & Hndr).
    destruct (detach p l) as [[own l']|] eqn:Hdl.
    { destruct (Hsub _ _ _ Hdl) as (-> & Hy & Hp).
      { intros y Hy. apply elem_of_app. by left. }
      simpl. split; [rewrite Hy; solve_Permutation|].
      split.
      { apply NoDup_cons. split.
        - intros Hq'. apply Hq. rewrite Hp.
          apply elem_of_app in Hq' as [Hq'|Hq']; apply elem_of_app;
            [left; by right | by right].
        - apply NoDup_app. rewrite Hp in Hndl.
          apply NoDup_cons in Hndl as [_ Hndl]. split; [done|]. split; [|done].
          intros z Hz. apply Hlr. rewrite Hp. by right. }
      split.
      { intros (-> & Hl & Hr).
        destruct (consistent_detach _ _ _ _ Hl Hdl) as [Hl' Hw].
        simpl. repeat split; try done; lia. }
      intros [Hl Hr]. split; [|done]. exact (occupied_detach _ _ _ _ Hl Hdl). }
    destruct (detach p r) as [[own r']|] eqn:Hdr; last first.
    { exfalso. apply elem_of_app in Hin as [Hin|Hin].
      - apply (detach_None _ _ Hdl).
        by apply (list_elem_of_fmap_2 fst _ (p, e)) in Hin.
      - apply (detach_None _ _ Hdr).
        by apply (list_elem_of_fmap_2 fst _ (p, e)) in Hin. }
    destruct (Hsub _ _ _ Hdr) as (-> & Hy & Hp).
    { intros y Hy. apply elem_of_app. by right. }
    simpl. split; [rewrite Hy; solve_Permutation|].
    split.
    { apply NoDup_cons. split.
      - intros Hq'. apply Hq. rewrite Hp.
        apply elem_of_app in Hq' as [Hq'|Hq']; apply elem_of_app;
          [by left | right; by right].
      - apply NoDup_app. rewrite Hp in Hndr.
        apply NoDup_cons in Hndr as [_ Hndr]. split; [done|]. split; [|done].
        intros z Hz Hz'. apply (Hlr z Hz). rewrite Hp. by right. }
    split.
    { intros (-> & Hl & Hr).
      destruct (consistent_detach _ _ _ _ Hr Hdr) as [Hr' Hw].
      simpl. repeat split; try done; lia. }
    intros [Hl Hr]. split; [done|]. exact (occupied_detach _ _ _ _ Hr Hdr).
Qed.

(** The root is never cleared and never replaced: what [hn_remove] leaves
    below [hdb.hostTree] starts with the node that was there. *)
Lemma hn_remove_root (p : nat) (hn : hostNode) :
  head (ptrs (hn_remove p hn)) = head (ptrs hn).
Proof.
  destruct hn as [|q w x l r|q w l r]; simpl; [done|..].
  - destruct (decide (q = p)); [done|].
    destruct (detach p l) as [[own l']|]; [done|].
    by destruct (detach p r) as [[own r']|].
  - destruct (detach p l) as [[own l']|]; [done|].
    by destruct (detach p r) as [[own r']|].
Qed.

Lemma detached_left (q p : nat) (l l' r : hostNode) :
  q ∉ ptrs l ++ ptrs r → NoDup (ptrs l) →
  (∀ x, x ∈ ptrs l → x ∉ ptrs r) → ptrs l ≡ₚ p :: ptrs l' →
  p ∈ q :: ptrs l' ++ ptrs r ↔ Some q = Some p.
Proof.
  intros Hq Hnd Hlr Hp.
  assert (p ∈ ptrs l) as Hpl by (rewrite Hp; by left).
  rewrite Hp in Hnd. apply NoDup_cons in Hnd as [Hpl' _].
  split.
  - intros [->|[Hin|Hin]%elem_of_app]%elem_of_cons; [done|done|].
    by destruct (Hlr p Hpl).
  - intros [= ->]. exfalso. apply Hq, elem_of_app. by left.
Qed.

Lemma detached_right (q p : nat) (l r r' : hostNode) :
  q ∉ ptrs l ++ ptrs r → NoDup (ptrs r) →
  (∀ x, x ∈ ptrs l → x ∉ ptrs r) → ptrs r ≡ₚ p :: ptrs r' →
  p ∈ q :: ptrs l ++ ptrs r' ↔ Some q = Some p.
Proof.
  intros Hq Hnd Hlr Hp.
  assert (p ∈ ptrs r) as Hpr by (rewrite Hp; by left).
  rewrite Hp in Hnd. apply NoDup_cons in Hnd as [Hpr' _].
  split.
  - intros [->|[Hin|Hin]%elem_of_app]%elem_of_cons; [done| |done].
    by destruct (Hlr p Hin).
  - intros [= ->]. exfalso. apply Hq, elem_of_app. by right.
Qed.

(** Where the removed node is afterwards: a node below the root is no longer
    reachable; the root is still the root. *)
Lemma hn_remove_ptrs (p : nat) (e : HostEntry) (hn : hostNode) :
  NoDup (ptrs hn) → (p, e) ∈ nodes hn →
  p ∈ ptrs (hn_remove p hn) ↔ head (ptrs hn) = Some p.
Proof.
  intros Hnd Hin.
  destruct hn as [|q w x l r|q w l r]; simpl in *.
  { by apply elem_of_nil in Hin. }
  - apply NoDup_cons in Hnd as [Hq Hnd].
    apply NoDup_app in Hnd as (Hndl & Hlr & Hndr).
    destruct (decide (q = p)) as [->|Hne].
    { simpl. split; [done|]. intros _. by left. }
    apply elem_of_cons in Hin as [[= <- _]|Hin]; [done|].
    destruct (detach p l) as [[own l']|] eqn:Hdl.
    { destruct (nodes_detach _ _ _ _ Hdl) as (y & _ & _ & Hp).
      simpl. by apply (detached_left q p l l' r). }
    destruct (detach p r) as [[own r']|] eqn:Hdr.
    { destruct (nodes_detach _ _ _ _ Hdr) as (y & _ & _ & Hp).
      simpl. by apply (detached_right q p l r r'). }
    exfalso. apply elem_of_app in Hin as [Hin|Hin].
    + apply (detach_None _ _ Hdl).
      by apply (list_elem_of_fmap_2 fst _ (p, e)) in Hin.
    + apply (detach_None _ _ Hdr).
      by apply (list_elem_of_fmap_2 fst _ (p, e)) in Hin.
  - apply NoDup_cons in Hnd as [Hq Hnd].
    apply NoDup_app in Hnd as (Hndl & Hlr & Hndr).
    destruct (detach p l) as [[own l']|] eqn:Hdl.
    { destruct (nodes_detach _ _ _ _ Hdl) as (y & _ & _ & Hp).
      simpl. by apply (detached_left q p l l' r). }
    destruct (detach p r) as [[own r']|] eqn:Hdr.
    { destruct (nodes_detach _ _ _ _ Hdr) as (y & _ & _ & Hp).
      simpl. by apply (detached_right q p l r r'). }
    exfalso. apply elem_of_app in Hin as [Hin|Hin].
    + apply (detach_None _ _ Hdl).
      by apply (list_elem_of_fmap_2 fst _ (p, e)) in Hin.
    + apply (detach_None _ _ Hdr).
      by apply (list_elem_of_fmap_2 fst _ (p, e)) in Hin.
Qed.

(** The nodes that hold a host are some of the nodes of the tree, in the
    same order. *)
Lemma nodes_sublist_ptrs (hn : hostNode) : (nodes hn).*1 `sublist_of` ptrs hn.
Proof.
  induction hn as [|q w e l IHl r IHr|q w l IHl r IHr]; simpl; [done|..];
    rewrite fmap_app.
  - apply sublist_skip. by apply sublist_app.
  - apply sublist_cons. by apply sublist_app.
Qed.

Lemma deref_None (p : nat) (hn : hostNode) :
  p ∉ (nodes hn).*1 → deref p hn = None.
Proof.
  intros Hp. destruct (deref p hn) as [x|] eqn:Hd; [|done].
  exfalso. apply Hp. apply deref_Some in Hd.
  by apply (list_elem_of_fmap_2 fst _ (p, x)) in Hd.
Qed.

(** After [hn_remove] the location leads to no host any more. *)
Lemma hn_remove_gone (p : nat) (e : HostEntry) (hn : hostNode) :
  NoDup (ptrs hn) → (p, e) ∈ nodes hn → deref p (hn_remove p hn) = None.
Proof.
  intros Hnd Hin.
  destruct (hn_remove_node p e hn Hnd Hin) as (Hn & _).
  pose proof (sublist_NoDup _ _ Hnd (nodes_sublist_ptrs hn)) as Hnd1.
  rewrite Hn in Hnd1. simpl in Hnd1. apply NoDup_cons in Hnd1 as [Hp _].
  by apply deref_None.
Qed.

(** ** The invariants under [Insert] and [Remove] *)

Lemma freshPtr_fresh (hdb : HostDB) : freshPtr hdb ∉ ptrs (hostTree hdb).
Proof.
  intros Hin.
  assert (freshPtr hdb
            ∈ ptrs (hostTree hdb) ++ (map_to_list (activeHosts hdb)).*2) as Hin'.
  { apply elem_of_app. by left. }
  apply max_list_elem_of_le in Hin'. unfold freshPtr in Hin'. lia.
Qed.

(** A successful [insert] adds one node, at a new location, and indexes it
    under the address of the entry. *)
Lemma insert_sound (entry : HostEntry) (hdb : HostDB) :
  sound hdb →
  match activeHosts hdb !! IPAddress entry with
  | Some _ => insert entry hdb = Returned (Some ErrDuplicate) hdb
  | None =>
      ∃ hdb', insert entry hdb = Returned None hdb' ∧ sound hdb' ∧
        activeHosts hdb' = <[IPAddress entry := freshPtr hdb]> (activeHosts hdb) ∧
        nodes (hostTree hdb') ≡ₚ (freshPtr hdb, entry) :: nodes (hostTree hdb) ∧
        inactiveHosts hdb' = inactiveHosts hdb ∧ mu hdb' = mu hdb
  end.
Proof.
  intros (Hc & Hnd & Hix). unfold insert.
  destruct (activeHosts hdb !! IPAddress entry) as [q|] eqn:Ha; [done|].
  pose proof (freshPtr_fresh hdb) as Hfresh.
  assert (map_to_list (<[IPAddress entry := freshPtr hdb]> (activeHosts hdb))
            ≡ₚ indexOf (freshPtr hdb, entry)
                 :: (indexOf <$> nodes (hostTree hdb))) as Hmap.
  { rewrite map_to_list_insert by done. by rewrite Hix. }
  destruct (nil_or_not (hostTree hdb)) as [Ht|Ht].
  - rewrite Ht in *. eexists. split; [reflexivity|].
    split; [|by cbn [hostTree activeHosts inactiveHosts mu set_tree]].
    split; [|split]; cbn [hostTree activeHosts mu set_tree]; try done.
    + simpl. repeat split. lia.
    + apply NoDup_singleton.
  - exists (set_tree (hn_insert (freshPtr hdb) entry (hostTree hdb))
              (<[IPAddress entry := freshPtr hdb]> (activeHosts hdb)) hdb).
    split; [by destruct (hostTree hdb)|].
    pose proof (nodes_hn_insert (freshPtr hdb) entry (hostTree hdb) Ht) as Hn.
    split; [|by cbn [hostTree activeHosts inactiveHosts mu set_tree]].
    split; [|split]; cbn [hostTree activeHosts mu set_tree].
    + by apply consistent_hn_insert.
    + rewrite ptrs_hn_insert by done. by apply NoDup_cons.
    + by rewrite Hmap, Hn.
Qed.

(** [removeLocked] of an active address takes out the one node indexed under
    it; of any other address, it leaves the tree and the index alone. *)
Lemma removeLocked_sound (addr : string) (hdb : HostDB) :
  sound hdb →
  match activeHosts hdb !! addr with
  | Some p =>
      ∃ e hdb', removeLocked addr hdb = Returned None hdb' ∧ sound hdb' ∧
        IPAddress e = addr ∧
        nodes (hostTree hdb) ≡ₚ (p, e) :: nodes (hostTree hdb') ∧
        activeHosts hdb' = delete addr (activeHosts hdb) ∧
        inactiveHosts hdb' = inactiveHosts hdb ∧ mu hdb' = mu hdb
  | None =>
      ∃ err hdb', removeLocked addr hdb = Returned err hdb' ∧ sound hdb' ∧
        mu hdb' = mu hdb
  end.
Proof.
  intros (Hc & Hnd & Hix). unfold removeLocked.
  destruct (activeHosts hdb !! addr) as [node|] eqn:Ha; last first.
  { destruct (inactiveHosts hdb !! addr);
      eexists _, _; (split; [reflexivity|]); by repeat split. }
  assert ((addr, node) ∈ indexOf <$> nodes (hostTree hdb)) as Hin.
  { rewrite <- Hix. by apply elem_of_map_to_list. }
  apply list_elem_of_fmap in Hin as ([p e] & [= -> ->] & Hin).
  simpl in *.
  destruct (hn_remove_node p e (hostTree hdb) Hnd Hin)
    as (Hn & Hnd' & Hc' & _).
  exists e. eexists. split; [reflexivity|].
  split; [|by cbn [hostTree activeHosts inactiveHosts mu set_tree]].
  split; [|split]; cbn [hostTree activeHosts mu set_tree].
  - by apply Hc'.
  - done.
  - apply (Permutation_cons_inv (a := (IPAddress e, p))).
    rewrite map_to_list_delete by done. rewrite Hix. by rewrite Hn at 1.
Qed.

(** C6, as the code allows it. [Remove] by cases, on a directory whose lock
    is free.  An active address: the address is deleted from [activeHosts],
    no error, and the tree is what [node.remove()] leaves of it, below the
    same root node.  In a directory that satisfies the invariants the host
    is then out of the tree: the location leads to no host any more, every
    other node that holds a host is still there, the root weight has fallen
    by the own weight of the host, and the invariants hold again.  The node
    itself has left the tree unless it is the root: [Remove] does not assign
    [hdb.hostTree], so the root node stays where it is, without a host.  An
    address that is only inactive: it is deleted from [inactiveHosts], no
    error.  Any other address: the not-found error, and the directory (so
    both maps and their sizes) is as before. *)
Theorem Remove_cases (addr : string) (hdb : HostDB) :
  mu hdb = unlocked →
  match activeHosts hdb !! addr, inactiveHosts hdb !! addr with
  | Some node, _ =>
      ∃ hdb', Remove addr hdb = Returned None hdb' ∧
        hostTree hdb' = hn_remove node (hostTree hdb) ∧
        head (ptrs (hostTree hdb')) = head (ptrs (hostTree hdb)) ∧
        activeHosts hdb' = delete addr (activeHosts hdb) ∧
        activeHosts hdb' !! addr = None ∧
        inactiveHosts hdb' = inactiveHosts hdb ∧
        (sound hdb →
         ∃ e, IPAddress e = addr ∧
           deref node (hostTree hdb) = Some e ∧
           deref node (hostTree hdb') = None ∧
           nodes (hostTree hdb) ≡ₚ (node, e) :: nodes (hostTree hdb') ∧
           (node ∈ ptrs (hostTree hdb')
            ↔ head (ptrs (hostTree hdb)) = Some node) ∧
           totalWeight hdb = entryWeight e + totalWeight hdb' ∧
           sound hdb')
  | None, Some _ =>
      ∃ hdb', Remove addr hdb = Returned None hdb' ∧
        inactiveHosts hdb' = delete addr (inactiveHosts hdb) ∧
        inactiveHosts hdb' !! addr = None ∧
        activeHosts hdb' = activeHosts hdb ∧
        hostTree hdb' = hostTree hdb
  | None, None =>
      Remove addr hdb = Returned (Some ErrNotFound) hdb ∧
      size (activeHosts (final (Remove addr hdb))) = size (activeHosts hdb) ∧
      size (inactiveHosts (final (Remove addr hdb))) = size (inactiveHosts hdb)
  end.
Proof.
  intros Hmu. rewrite Remove_free by done.
  pose proof (removeLocked_sound addr hdb) as Hsound.
  unfold removeLocked in *.
  destruct (activeHosts hdb !! addr) as [node|] eqn:Ha.
  - eexists. split; [reflexivity|].
    cbn [hostTree activeHosts inactiveHosts set_tree].
    split; [done|]. split; [apply hn_remove_root|]. split; [done|].
    split; [by rewrite lookup_delete_eq|].
    split; [done|]. intros Hs.
    destruct (Hsound Hs) as (e & hdb' & [= <-] & Hs' & He & Hn & _).
    cbn [hostTree set_tree] in Hn.
    destruct Hs as (Hc & Hnd & Hix).
    assert ((node, e) ∈ nodes (hostTree hdb)) as Hin by (rewrite Hn; by left).
    exists e. split; [done|]. split; [by apply deref_nodes|].
    split; [by apply (hn_remove_gone node e)|]. split; [done|].
    split; [by apply (hn_remove_ptrs node e)|].
    split; [|done]. unfold totalWeight. cbn [hostTree set_tree].
    by apply (hn_remove_node node e (hostTree hdb) Hnd Hin).
  - destruct (inactiveHosts hdb !! addr) as [e|] eqn:Hi.
    + eexists; split; [reflexivity|]; simpl.
      by rewrite lookup_delete_eq.
    + done.
Qed.

Lemma wellFormed_call (o : op) (hdb : HostDB) :
  wellFormed hdb →
  ∃ err hdb', call o hdb = Returned err hdb' ∧ wellFormed hdb'.
Proof.
  intros (Hs & Hmu). destruct o as [entry|addr]; simpl.
  - rewrite Insert_free by done.
    pose proof (insert_sound entry hdb Hs) as Hi.
    destruct (activeHosts hdb !! IPAddress entry).
    + by exists (Some ErrDuplicate), hdb.
    + destruct Hi as (hdb' & -> & Hs' & _ & _ & _ & Hmu').
      exists None, hdb'. repeat split; try apply Hs'. congruence.
  - rewrite Remove_free by done.
    pose proof (removeLocked_sound addr hdb Hs) as Hr.
    destruct (activeHosts hdb !! addr).
    + destruct Hr as (e & hdb' & -> & Hs' & _ & _ & _ & _ & Hmu').
      exists None, hdb'. repeat split; try apply Hs'. congruence.
    + destruct Hr as (err & hdb' & -> & Hs' & Hmu').
      exists err, hdb'. repeat split; try apply Hs'. congruence.
Qed.

Lemma wellFormed_calls (os : list op) (hdb : HostDB) :
  wellFormed hdb →
  ∃ errs hdb', calls os hdb = Returned errs hdb' ∧ wellFormed hdb'.
Proof.
  revert hdb. induction os as [|o os IH]; intros hdb Hwf; simpl.
  { by exists [], hdb. }
  destruct (wellFormed_call o hdb Hwf) as (err & hdb1 & Hcall & Hwf1).
  destruct (IH hdb1 Hwf1) as (errs & hdb2 & Hcalls & Hwf2).
  exists (err :: errs), hdb2. split; [|done].
  unfold bind. by rewrite Hcall, Hcalls.
Qed.

(** In a sound directory the index has as many keys as the tree has nodes
    that hold a host, each key leads to the node holding its entry, and the
    aggregate of the root is the sum of the own weights of the active
    entries. *)
Lemma sound_index (hdb : HostDB) :
  sound hdb →
  size (activeHosts hdb) = occupiedNodes hdb ∧
  totalWeight hdb = activeWeight hdb ∧
  (∀ addr node, activeHosts hdb !! addr = Some node →
     ∃ e, deref node (hostTree hdb) = Some e ∧ IPAddress e = addr).
Proof.
  intros (Hc & Hnd & Hix). split; [|split].
  - unfold occupiedNodes. rewrite <- length_map_to_list, Hix.
    by rewrite length_fmap.
  - unfold totalWeight, activeWeight.
    rewrite consistent_ownWeights by done. unfold ownWeights, entries.
    rewrite (sumN_Permutation _ _
               (fmap_Permutation (activeOwnWeight (hostTree hdb)) _ _ Hix)).
    f_equal. rewrite <- !list_fmap_compose.
    apply list_fmap_ext. intros i [p e] Hi. unfold activeOwnWeight; simpl.
    by rewrite (deref_nodes p e) by (done || by eapply list_elem_of_lookup_2).
  - intros addr node Ha.
    assert ((addr, node) ∈ indexOf <$> nodes (hostTree hdb)) as Hin.
    { rewrite <- Hix. by apply elem_of_map_to_list. }
    apply list_elem_of_fmap in Hin as ([p e] & [= -> ->] & Hin).
    exists e. split; [|done]. by apply deref_nodes.
Qed.

Lemma wellFormed_New (st : State) (hdb : HostDB) :
  New (Some st) = inr hdb → wellFormed hdb.
Proof.
  intros [= <-]. repeat split; simpl.
  - apply NoDup_nil_2.
  - by rewrite map_to_list_empty.
Qed.

Lemma calls_app (os rest : list op) (hdb hdb1 hdb2 : HostDB)
    (errs errs' : list (option error)) :
  calls os hdb = Returned errs hdb1 →
  calls rest hdb1 = Returned errs' hdb2 →
  calls (os ++ rest) hdb = Returned (errs ++ errs') hdb2.
Proof.
  revert hdb errs. induction os as [|o os IH]; intros hdb errs; simpl.
  { by intros [= <- <-]. }
  unfold bind, ret. destruct (call o hdb) as [err hdb'| |]; try done.
  destruct (calls os hdb') as [errs0 hdb0| |] eqn:Hos; try done.
  intros [= <- <-] Hrest. by rewrite (IH _ _ Hos Hrest).
Qed.

(** Only the root can be a node that holds no host: the tree has as many
    nodes as hold a host, or one more. *)
Lemma occupied_ptrs (hn : hostNode) :
  occupied hn → length (ptrs hn) = length (nodes hn).
Proof.
  induction hn as [|q w e l IHl r IHr|q w l IHl r IHr]; simpl; [done| |done].
  intros [Hl Hr]. rewrite !length_app, IHl, IHr; done.
Qed.

Lemma rootOnly_ptrs (hn : hostNode) :
  rootOnly hn →
  (length (nodes hn) ≤ length (ptrs hn) ≤ S (length (nodes hn)))%nat.
Proof.
  destruct hn as [|q w e l r|q w l r]; simpl; [lia|..]; intros [Hl Hr];
    rewrite !length_app, (occupied_ptrs l), (occupied_ptrs r) by done; lia.
Qed.

Lemma rootOnly_insert (entry : HostEntry) (hdb hdb' : HostDB)
    (err : option error) :
  rootOnly (hostTree hdb) → insert entry hdb = Returned err hdb' →
  rootOnly (hostTree hdb').
Proof.
  intros Hroot. unfold insert.
  destruct (activeHosts hdb !! IPAddress entry); [by intros [= _ <-]|].
  destruct (nil_or_not (hostTree hdb)) as [Ht|Ht].
  - rewrite Ht. by intros [= _ <-].
  - intros Hret.
    assert (hdb' = set_tree (hn_insert (freshPtr hdb) entry (hostTree hdb))
              (<[IPAddress entry := freshPtr hdb]> (activeHosts hdb)) hdb)
      as ->.
    { destruct (hostTree hdb); [done|..]; by injection Hret as _ <-. }
    cbn [hostTree set_tree]. by apply rootOnly_hn_insert.
Qed.

Lemma rootOnly_removeLocked (addr : string) (hdb hdb' : HostDB)
    (err : option error) :
  sound hdb → rootOnly (hostTree hdb) →
  removeLocked addr hdb = Returned err hdb' → rootOnly (hostTree hdb').
Proof.
  intros (Hc & Hnd & Hix) Hroot. unfold removeLocked.
  destruct (activeHosts hdb !! addr) as [node|] eqn:Ha; last first.
  { destruct (inactiveHosts hdb !! addr); by intros [= _ <-]. }
  assert ((addr, node) ∈ indexOf <$> nodes (hostTree hdb)) as Hin.
  { rewrite <- Hix. by apply elem_of_map_to_list. }
  apply list_elem_of_fmap in Hin as ([p e] & [= -> ->] & Hin).
  intros [= _ <-]. cbn [hostTree set_tree].
  by apply (hn_remove_node p e (hostTree hdb) Hnd Hin).
Qed.

Lemma rootOnly_calls (os : list op) (hdb hdb' : HostDB)
    (errs : list (option error)) :
  wellFormed hdb → rootOnly (hostTree hdb) →
  calls os hdb = Returned errs hdb' → rootOnly (hostTree hdb').
Proof.
  revert hdb errs. induction os as [|o os IH]; intros hdb errs Hwf Hroot; simpl.
  { by intros [= _ <-]. }
  destruct (wellFormed_call o hdb Hwf) as (err & hdb1 & Hcall & Hwf1).
  unfold bind, ret. rewrite Hcall.
  destruct (calls os hdb1) as [errs1 hdb2| |] eqn:Hos; [|done..].
  intros [= _ <-]. apply (IH hdb1 errs1 Hwf1); [|done].
  destruct Hwf as [Hs Hmu]. destruct o as [entry|addr]; simpl in Hcall.
  - rewrite Insert_free in Hcall by done. by eapply rootOnly_insert.
  - rewrite Remove_free in Hcall by done. by eapply rootOnly_removeLocked.
Qed.

(** C2, as the code allows it. Take any sequence of [Insert] and [Remove]
    calls on a new directory and stop it after any of its calls: [os] is what
    has been called so far and [rest] what is still to come.  All calls
    return, and in the directory reached after [os], [activeHosts] has as
    many keys as the tree has nodes that hold a host; the tree has that many
    nodes or one more (the root, once its host has been removed: [Remove]
    never clears or replaces [hdb.hostTree]); every node's aggregate is its
    own weight plus the aggregates of its children, a node without a host
    having no own weight; and the aggregate of the root is the sum of the own
    weights of the active entries.  The addresses need not even be unique: a
    duplicate [Insert] and a [Remove] of an unknown address fail and change
    nothing. *)
Theorem calls_keep_index_and_weights (st : State) (os rest : list op) :
  ∃ hdb0 errs hdb errs' hdb',
    New (Some st) = inr hdb0 ∧
    calls os hdb0 = Returned errs hdb ∧
    calls (os ++ rest) hdb0 = Returned (errs ++ errs') hdb' ∧
    size (activeHosts hdb) = occupiedNodes hdb ∧
    (occupiedNodes hdb ≤ reachableNodes hdb ≤ S (occupiedNodes hdb))%nat ∧
    consistent (hostTree hdb) ∧
    totalWeight hdb = activeWeight hdb.
Proof.
  eexists.
  pose proof (wellFormed_New st _ eq_refl) as Hwf0.
  destruct (wellFormed_calls os _ Hwf0) as (errs & hdb & Hcalls & Hwf).
  destruct (wellFormed_calls rest hdb Hwf) as (errs' & hdb' & Hrest & _).
  exists errs, hdb, errs', hdb'. split; [reflexivity|]. split; [exact Hcalls|].
  split; [exact (calls_app _ _ _ _ _ _ _ Hcalls Hrest)|].
  destruct (sound_index hdb (proj1 Hwf)) as (Hsize & Hweight & _).
  split; [done|].
  split; [apply rootOnly_ptrs; by apply (rootOnly_calls os _ hdb errs Hwf0)|].
  split; [apply Hwf | done].
Qed.

(** ** Applying blocks, and taking their hosts out again *)

Lemma insert_returns (entry : HostEntry) (hdb : HostDB) :
  ∃ err hdb', insert entry hdb = Returned err hdb' ∧ mu hdb' = mu hdb.
Proof.
  unfold insert. destruct (activeHosts hdb !! IPAddress entry); [by eauto|].
  destruct (hostTree hdb); by eauto.
Qed.

Lemma applyEntries_returns (es : list HostEntry) (hdb : HostDB) :
  ∃ err hdb', applyEntries es hdb = Returned err hdb' ∧ mu hdb' = mu hdb.
Proof.
  revert hdb. induction es as [|e es IH]; intros hdb; simpl; [by eauto|].
  unfold orReturn, bind, ret.
  destruct (insert_returns e hdb) as (err & hdb1 & -> & Hmu).
  destruct err; [by eauto|].
  destruct (IH hdb1) as (err' & hdb2 & -> & Hmu'). exists err', hdb2.
  split; [done | congruence].
Qed.

Lemma applyBlocks_returns (h : BlockHeight) (bs : list Block) (hdb : HostDB) :
  ∃ err hdb', applyBlocks h bs hdb = Returned err hdb' ∧ mu hdb' = mu hdb.
Proof.
  revert hdb. induction bs as [|b bs IH]; intros hdb; simpl; [by eauto|].
  destruct (findHostAnnouncements h b) as [es|msg]; [|by eauto].
  unfold orReturn, bind, ret.
  destruct (applyEntries_returns es hdb) as (err & hdb1 & -> & Hmu).
  destruct err; [by eauto|].
  destruct (IH hdb1) as (err' & hdb2 & -> & Hmu'). exists err', hdb2.
  split; [done | congruence].
Qed.

Lemma rewindBlocks_nothing (h : BlockHeight) (bs : list Block) (hdb : HostDB) :
  Forall (λ b, findHostAnnouncements h b = Ok []) bs →
  rewindBlocks h bs hdb = Returned None hdb.
Proof.
  induction 1 as [|b bs Hb _ IH]; simpl; [done|].
  rewrite Hb. unfold orReturn, bind, ret. simpl. exact IH.
Qed.

(** The other half of [Update] is sound: a batch that rewinds no host returns,
    with the lock released. *)
Lemma Update_without_rewind_returns (h : BlockHeight)
    (rewound applied : list Block) (hdb : HostDB) :
  mu hdb = unlocked →
  Forall (λ b, findHostAnnouncements h b = Ok []) rewound →
  ∃ err hdb', Update h rewound applied hdb = Returned err hdb' ∧
              mu hdb' = unlocked.
Proof.
  intros Hmu Hre. unfold Update. rewrite locked_free by done.
  unfold orReturn, bind. rewrite rewindBlocks_nothing by done.
  destruct (applyBlocks_returns h applied (set_mu (mkRWMutex true 0) hdb))
    as (err & hdb' & -> & Hmu').
  exists err, (Unlock hdb'). split; [done|].
  unfold Unlock. simpl. by rewrite Hmu'.
Qed.

Lemma applyEntries_app (es1 es2 : list HostEntry) (hdb : HostDB) :
  applyEntries (es1 ++ es2) hdb
  = orReturn (applyEntries es1) (applyEntries es2) hdb.
Proof.
  revert hdb. induction es1 as [|e es1 IH]; intros hdb; simpl; [done|].
  unfold orReturn, bind, ret in *.
  destruct (insert e hdb) as [[err|] hdb'| |]; auto.
Qed.

Lemma applyBlocks_announced (h : BlockHeight) (bs : list Block)
    (hdb hdb1 : HostDB) :
  applyBlocks h bs hdb = Returned None hdb1 →
  applyEntries (announced h bs) hdb = Returned None hdb1.
Proof.
  revert hdb. induction bs as [|b bs IH]; intros hdb; simpl; [done|].
  destruct (findHostAnnouncements h b) as [es|msg]; [|done].
  rewrite applyEntries_app. unfold orReturn, bind, ret.
  destruct (applyEntries es hdb) as [[err|] hdb'| |]; auto; done.
Qed.

(** A successful application of [es]: their addresses are pairwise distinct,
    were not active, are active now, and the tree has one new node for each
    of them. *)
Lemma applyEntries_success (es : list HostEntry) (hdb hdb1 : HostDB) :
  sound hdb → applyEntries es hdb = Returned None hdb1 →
  sound hdb1 ∧ mu hdb1 = mu hdb ∧ inactiveHosts hdb1 = inactiveHosts hdb ∧
  NoDup (IPAddress <$> es) ∧
  (∀ a, a ∈ IPAddress <$> es →
     activeHosts hdb !! a = None ∧ is_Some (activeHosts hdb1 !! a)) ∧
  (∀ a, a ∉ IPAddress <$> es → activeHosts hdb1 !! a = activeHosts hdb !! a) ∧
  ∃ ns, ns.*2 = es ∧ nodes (hostTree hdb1) ≡ₚ ns ++ nodes (hostTree hdb).
Proof.
  revert hdb. induction es as [|e es IH]; intros hdb Hs; simpl.
  { intros [= <-]. split; [done|]. split; [done|]. split; [done|].
    split; [apply NoDup_nil_2|]. split; [|split; [done|by exists []]].
    intros a Ha. by apply elem_of_nil in Ha. }
  unfold orReturn, bind, ret.
  pose proof (insert_sound e hdb Hs) as Hi.
  destruct (activeHosts hdb !! IPAddress e) as [q|] eqn:Hq.
  { by rewrite Hi. }
  destruct Hi as (hdb' & -> & Hs' & Ha' & Hn' & Hi' & Hmu').
  intros Happ.
  destruct (IH hdb' Hs' Happ)
    as (Hs1 & Hmu1 & Hi1 & Hnd & Hin & Hout & ns & Hns & Hn1).
  assert (IPAddress e ∉ IPAddress <$> es) as Hfresh.
  { intros Hin'. apply Hin in Hin' as [Hnone _].
    by rewrite Ha', lookup_insert_eq in Hnone. }
  split; [done|]. split; [congruence|]. split; [congruence|].
  split; [by apply NoDup_cons|]. split; [|split].
  - intros a [->|Ha]%elem_of_cons.
    + split; [done|]. rewrite Hout by done. rewrite Ha', lookup_insert_eq.
      by eexists.
    + destruct (Hin a Ha) as [Hnone Hsome]. split; [|done].
      rewrite Ha' in Hnone. by apply lookup_insert_None in Hnone as [? _].
  - intros a [Hne Ha]%not_elem_of_cons. rewrite Hout by done.
    rewrite Ha'. by apply lookup_insert_ne.
  - exists ((freshPtr hdb, e) :: ns). split.
    + rewrite fmap_cons. simpl. by f_equal.
    + rewrite Hn1, Hn'. solve_Permutation.
Qed.

(** Taking the pairwise distinct active addresses [rs] out with [Remove]:
    every call succeeds, and the tree loses the node of each of them. *)
Lemma Remove_all_success (rs : list string) (hdb1 : HostDB) :
  wellFormed hdb1 → NoDup rs →
  (∀ a, a ∈ rs → is_Some (activeHosts hdb1 !! a)) →
  ∃ rem hdb2,
    calls (OpRemove <$> rs) hdb1 = Returned (replicate (length rs) None) hdb2 ∧
    wellFormed hdb2 ∧ inactiveHosts hdb2 = inactiveHosts hdb1 ∧
    (λ n, IPAddress n.2) <$> rem = rs ∧
    nodes (hostTree hdb1) ≡ₚ rem ++ nodes (hostTree hdb2) ∧
    (∀ a, a ∈ rs → activeHosts hdb2 !! a = None) ∧
    (∀ a, a ∉ rs → activeHosts hdb2 !! a = activeHosts hdb1 !! a).
Proof.
  revert hdb1. induction rs as [|r rs IH]; intros hdb1 Hwf Hnd Hact.
  { exists [], hdb1. split; [done|]. split; [done|]. split; [done|].
    split; [done|]. split; [done|]. split; [|done].
    intros a Ha. by apply elem_of_nil in Ha. }
  apply NoDup_cons in Hnd as [Hr Hnd]. destruct Hwf as [Hs Hmu].
  destruct (Hact r) as [p Hp]; [by left|].
  pose proof (removeLocked_sound r hdb1 Hs) as Hrm. rewrite Hp in Hrm.
  destruct Hrm as (e & hdb' & Hrm & Hs' & He & Hn' & Ha' & Hi' & Hmu').
  destruct (IH hdb') as (rem & hdb2 & Hcalls & Hwf2 & Hi2 & Hrem & Hn2 & Hin & Hout).
  { split; [done | congruence]. }
  { done. }
  { intros a Ha. rewrite Ha', lookup_delete_ne; [apply Hact; by right|].
    intros ->. done. }
  exists ((p, e) :: rem), hdb2. split.
  { rewrite fmap_cons. cbn [calls call length replicate].
    unfold bind, ret. rewrite Remove_free by done.
    by rewrite Hrm, Hcalls. }
  split; [done|]. split; [congruence|]. split.
  { rewrite fmap_cons. simpl. by rewrite He, Hrem. }
  split.
  { rewrite Hn', Hn2. done. }
  split.
  - intros a [->|Ha]%elem_of_cons; [|by apply Hin].
    rewrite Hout by done. rewrite Ha'. apply lookup_delete_eq.
  - intros a [Hne Ha]%not_elem_of_cons. rewrite Hout by done.
    rewrite Ha'. by apply lookup_delete_ne.
Qed.

Lemma NoDup_fmap_eq {A B} (f : A → B) (l : list A) (x y : A) :
  NoDup (f <$> l) → x ∈ l → y ∈ l → f x = f y → x = y.
Proof.
  induction l as [|a l IH]; simpl.
  { intros _ Hx. by apply elem_of_nil in Hx. }
  intros [Ha Hnd]%NoDup_cons [->|Hx]%elem_of_cons [->|Hy]%elem_of_cons Hf.
  - done.
  - exfalso. apply Ha. rewrite Hf. by apply list_elem_of_fmap_2.
  - exfalso. apply Ha. rewrite <- Hf. by apply list_elem_of_fmap_2.
  - by apply IH.
Qed.

(** No two nodes of a sound directory hold the same address. *)
Lemma sound_addresses (hdb : HostDB) :
  sound hdb → NoDup ((λ n, IPAddress n.2) <$> nodes (hostTree hdb)).
Proof.
  intros (_ & _ & Hix).
  pose proof (NoDup_fst_map_to_list (activeHosts hdb)) as Hnd.
  rewrite Hix in Hnd. by rewrite <- list_fmap_compose in Hnd.
Qed.

(** X26. What the rewind is meant to do does hold once the lock is out of the
    way.  On a directory that satisfies the invariants and whose lock is
    free, after a successful [Update] that applies blocks, taking the
    announced hosts out again, each by a [Remove] of its own and in whatever
    order, gives back the active addresses with their nodes, the inactive
    hosts and the total weight from before the application. *)
Lemma apply_then_Remove_restores (h : BlockHeight) (applied : list Block)
    (rs : list string) (hdb hdb1 : HostDB) :
  wellFormed hdb →
  Update h [] applied hdb = Returned None hdb1 →
  rs ≡ₚ IPAddress <$> announced h applied →
  ∃ hdb2,
    calls (OpRemove <$> rs) hdb1 = Returned (replicate (length rs) None) hdb2 ∧
    activeHosts hdb2 = activeHosts hdb ∧
    inactiveHosts hdb2 = inactiveHosts hdb ∧
    totalWeight hdb2 = totalWeight hdb.
Proof.
  intros [Hs Hmu] Hup Hrs. unfold Update in Hup.
  rewrite locked_free in Hup by done. unfold orReturn, bind, ret in Hup.
  simpl in Hup.
  destruct (applyBlocks h applied (set_mu (mkRWMutex true 0) hdb))
    as [[err|] hdbL| |] eqn:Happ; try done.
  injection Hup as <-.
  apply applyBlocks_announced in Happ.
  apply applyEntries_success in Happ
    as (HsL & HmuL & HiL & Hnd & Hin & Hout & ns & Hns & HnL); [|exact Hs].
  cbn [set_mu mu inactiveHosts activeHosts hostTree] in *.
  assert (wellFormed (Unlock hdbL)) as Hwf1.
  { split; [exact HsL|]. unfold Unlock. simpl. by rewrite HmuL. }
  destruct (Remove_all_success rs (Unlock hdbL) Hwf1)
    as (rem & hdb2 & Hcalls & [Hs2 _] & Hi2 & Hrem & Hn2 & Hgone & Hkept).
  { by rewrite Hrs. }
  { intros a Ha. rewrite Hrs in Ha. by apply Hin. }
  exists hdb2. split; [done|]. split; [|split].
  - apply map_eq. intros a. destruct (decide (a ∈ rs)) as [Ha|Ha].
    + rewrite Hgone by done. rewrite Hrs in Ha. symmetry. by apply Hin.
    + rewrite Hkept by done. apply Hout. by rewrite <- Hrs.
  - by rewrite Hi2.
  - cbn [Unlock set_mu hostTree] in Hn2.
    assert (rem ≡ₚ ns) as Hperm.
    { pose proof (sound_addresses hdbL HsL) as Haddr.
      assert (NoDup rem) as Hndrem.
      { apply (NoDup_fmap_1 (λ n, IPAddress n.2)).
        rewrite Hrem. by rewrite Hrs. }
      assert ((λ n : nat * HostEntry, IPAddress n.2) <$> ns
              = IPAddress <$> announced h applied) as Hfns.
      { rewrite <- Hns. by rewrite <- list_fmap_compose. }
      assert (NoDup ns) as Hndns.
      { apply (NoDup_fmap_1 (λ n, IPAddress n.2)). by rewrite Hfns. }
      assert ((λ n : nat * HostEntry, IPAddress n.2) <$> ns
                ≡ₚ (λ n, IPAddress n.2) <$> rem) as Hsame.
      { by rewrite Hfns, Hrem, Hrs. }
      apply NoDup_Permutation; [done|done|]. intros x. split; intros Hx.
      - assert (IPAddress x.2 ∈ (λ n, IPAddress n.2) <$> ns) as Hfx.
        { rewrite Hsame. by apply (list_elem_of_fmap_2 (λ n, IPAddress n.2)). }
        apply list_elem_of_fmap in Hfx as (y & Hxy & Hy).
        rewrite (NoDup_fmap_eq _ _ x y Haddr); [done| | |done].
        + rewrite Hn2. apply elem_of_app. by left.
        + rewrite HnL. apply elem_of_app. by left.
      - assert (IPAddress x.2 ∈ (λ n, IPAddress n.2) <$> rem) as Hfx.
        { rewrite <- Hsame.
          by apply (list_elem_of_fmap_2 (λ n, IPAddress n.2)). }
        apply list_elem_of_fmap in Hfx as (y & Hxy & Hy).
        rewrite (NoDup_fmap_eq _ _ x y Haddr); [done| | |done].
        + rewrite HnL. apply elem_of_app. by left.
        + rewrite Hn2. apply elem_of_app. by left. }
    assert (nodes (hostTree hdb2) ≡ₚ nodes (hostTree hdb)) as Hnodes.
    { apply (Permutation_app_inv_l ns). rewrite <- HnL, Hn2. by rewrite Hperm. }
    unfold totalWeight.
    rewrite !consistent_ownWeights by (apply Hs2 || apply Hs).
    unfold ownWeights, entries. apply sumN_Permutation. by rewrite Hnodes.
Qed.

End hostdb_properties.

(** ** On the example chain *)

(** C1, as the code has it. Applying [block1] to the empty directory succeeds
    and makes its two hosts active.  Rewinding the same block then never
    returns: [Update] holds the write lock when [Remove] asks for it, so the
    two hosts stay active and the directory is not taken back to its state
    before the application. *)
Theorem Update_apply_then_rewind :
  @Update chain 0 [] [block1] hdb0 = Returned None hdb1 ∧
  @Update chain 0 [block1] [] hdb1 =
    Blocked (@set_mu chain (mkRWMutex true 0) hdb1) ∧
  dom (activeHosts hdb1) ≠ dom (activeHosts hdb0).
Proof.
  split; [by vm_compute|]. split; [by vm_compute|].
  intros Heq. assert ("A" ∈ dom (activeHosts hdb0)) as Hin.
  { rewrite <- Heq. apply elem_of_dom. by vm_compute. }
  apply elem_of_dom in Hin as [p Hp]. by vm_compute in Hp.
Qed.

(** C2, the claim as written fails: on the new directory, after [Insert] of
    one host and [Remove] of its address (two calls, one address) no address
    is active, but [hdb.hostTree] is still the node made for that host: one
    node is reachable from the root, and [activeHosts] has no key. *)
Lemma Remove_leaves_the_root_node :
  @New chain (Some (@mkState chain genesis)) = inr hdb0 ∧
  ∃ hdb, @calls chain [OpInsert hostA; OpRemove "A"] hdb0
         = Returned [None; None] hdb ∧
    hostTree hdb = vacated 1 0 nilNode nilNode ∧
    size (activeHosts hdb) = 0%nat ∧
    @reachableNodes chain hdb = 1%nat ∧
    size (activeHosts hdb) ≠ @reachableNodes chain hdb.
Proof.
  split; [reflexivity|].
  exists (@mkHostDB chain (@mkState chain genesis) 0
            (vacated 1 0 nilNode nilNode) ∅ ∅ unlocked).
  split; [by vm_compute|]. split; [reflexivity|].
  split; [by vm_compute|]. split; [reflexivity|]. by vm_compute.
Qed.

(** C5, the claim as written fails: a successful [Update] that applies
    [block1] leaves [recentBlock] on the genesis block. *)
Lemma Update_leaves_recentBlock_behind :
  ∃ hdb', @Update chain 0 [] [block1] hdb0 = Returned None hdb' ∧
          recentBlock hdb' ≠ @blockID chain block1.
Proof. exists hdb1. split; [by vm_compute|]. by vm_compute. Qed.

(** [hostA] is active in [hdb1]: inserting it again. *)
Lemma Insert_duplicate_witness :
  is_Some (activeHosts hdb1 !! IPAddress hostA) ∧
  @insert chain hostA hdb1 = Returned (Some ErrDuplicate) hdb1 ∧
  (mu hdb1 = unlocked →
   @Insert chain hostA hdb1 = Returned (Some ErrDuplicate) hdb1).
Proof.
  assert (is_Some (activeHosts hdb1 !! IPAddress hostA)) as Hs.
  { exists 1%nat. vm_compute. reflexivity. }
  split; [exact Hs|]. exact (Insert_duplicate hostA hdb1 Hs).
Defined.

Lemma hdb1_sound : @sound chain hdb1.
Proof.
  split; [|split].
  - simpl. repeat split.
  - apply (bool_decide_unpack _). by vm_compute.
  - vm_compute. reflexivity.
Defined.

(** C6, the claim as written fails: A is active in [hdb1] and its node is
    the root.  [Remove] of A succeeds, and that node is still in the tree
    afterwards: it is the root, now without a host. *)
Lemma Remove_keeps_the_root_node :
  activeHosts hdb1 !! "A" = Some 1%nat ∧
  ∃ hdb', @Remove chain "A" hdb1 = Returned None hdb' ∧
    hostTree hdb' = vacated 1 20 (Node 2 20 hostB nilNode nilNode) nilNode ∧
    1%nat ∈ ptrs (hostTree hdb').
Proof.
  split; [by vm_compute|].
  exists (@mkHostDB chain (@mkState chain genesis) 0
            (vacated 1 20 (Node 2 20 hostB nilNode nilNode) nilNode)
            (delete "A" (activeHosts hdb1)) ∅ unlocked).
  split; [by vm_compute|]. split; [reflexivity|]. by left.
Qed.

(** Removing the active address A from [hdb1]: its node is the root, which
    stays where it is, without a host and without its own weight of 10. *)
Lemma Remove_cases_witness :
  mu hdb1 = unlocked ∧ sound hdb1 ∧
  ∃ hdb', @Remove chain "A" hdb1 = Returned None hdb' ∧
    hostTree hdb' = vacated 1 20 (Node 2 20 hostB nilNode nilNode) nilNode ∧
    activeHosts hdb' = delete "A" (activeHosts hdb1) ∧
    inactiveHosts hdb' = inactiveHosts hdb1 ∧
    deref 1 (hostTree hdb1) = Some hostA ∧
    deref 1 (hostTree hdb') = None ∧
    nodes (hostTree hdb1) ≡ₚ (1%nat, hostA) :: nodes (hostTree hdb') ∧
    (1%nat ∈ ptrs (hostTree hdb') ↔ head (ptrs (hostTree hdb1)) = Some 1%nat) ∧
    @totalWeight chain hdb1 = 10 + @totalWeight chain hdb' ∧
    sound hdb'.
Proof.
  split; [reflexivity|]. split; [exact hdb1_sound|].
  assert (∃ hdb', @Remove chain "A" hdb1 = Returned None hdb' ∧
            hostTree hdb' = @hn_remove chain 1 (hostTree hdb1) ∧
            head (ptrs (hostTree hdb')) = head (ptrs (hostTree hdb1)) ∧
            activeHosts hdb' = delete "A" (activeHosts hdb1) ∧
            activeHosts hdb' !! "A" = None ∧
            inactiveHosts hdb' = inactiveHosts hdb1 ∧
            (sound hdb1 →
             ∃ e, IPAddress e = "A" ∧
               deref 1 (hostTree hdb1) = Some e ∧
               deref 1 (hostTree hdb') = None ∧
               nodes (hostTree hdb1) ≡ₚ (1%nat, e) :: nodes (hostTree hdb') ∧
               (1%nat ∈ ptrs (hostTree hdb')
                ↔ head (ptrs (hostTree hdb1)) = Some 1%nat) ∧
               @totalWeight chain hdb1
               = @entryWeight chain e + @totalWeight chain hdb' ∧
               sound hdb')) as (hdb' & Hr & Ht & _ & Ha & _ & Hi & Hs).
  { exact (Remove_cases (H:=chain) "A" hdb1 eq_refl). }
  destruct (Hs hdb1_sound) as (e & _ & Hd & Hg & Hn & Hp & Hw & Hs').
  assert (Some e = Some hostA) as [= ->] by (rewrite <- Hd; reflexivity).
  exists hdb'. split; [exact Hr|]. split; [rewrite Ht; reflexivity|].
  split; [exact Ha|]. split; [exact Hi|]. split; [exact Hd|].
  split; [exact Hg|]. split; [exact Hn|]. split; [exact Hp|].
  split; [exact Hw | exact Hs'].
Defined.

(** Drawing from the empty directory. *)
Lemma RandomHost_no_hosts_witness :
  writer (mu hdb0) = false ∧
  ((∃ h hdb', @RandomHost chain (λ _, Ok 0%Z) hdb0
              = Returned (h, Some ErrNoHosts) hdb')
     ↔ activeHosts hdb0 = ∅) ∧
  (activeHosts hdb0 = ∅ →
   @RandomHost chain (λ _, Ok 0%Z) hdb0
     = Returned (zeroEntry, Some ErrNoHosts) hdb0).
Proof.
  split; [reflexivity|].
  exact (RandomHost_no_hosts (H:=chain) (λ _, Ok 0%Z) hdb0 eq_refl).
Defined.

Lemma hdbIdle_active : activeHosts hdbIdle ≠ ∅.
Proof.
  intros He. assert (activeHosts hdbIdle !! "idle" = None) as Hn.
  { rewrite He. apply lookup_empty. }
  by vm_compute in Hn.
Defined.

(** Drawing from a directory whose only host has weight zero. *)
Lemma RandomHost_needs_positive_weight_witness :
  writer (mu hdbIdle) = false ∧ activeHosts hdbIdle ≠ ∅ ∧
  @consistent chain (hostTree hdbIdle) ∧
  Forall (λ e, @entryWeight chain e = 0) (entries (hostTree hdbIdle)) ∧
  totalWeight hdbIdle = 0 ∧ drawBound hdbIdle = 0%Z ∧
  @RandomHost chain (λ _, Ok 0%Z) hdbIdle = Panicked hdbIdle.
Proof.
  assert (@consistent chain (hostTree hdbIdle)) as Hc.
  { simpl. repeat split. }
  assert (Forall (λ e, @entryWeight chain e = 0) (entries (hostTree hdbIdle)))
    as Hz.
  { repeat constructor. }
  split; [reflexivity|]. split; [exact hdbIdle_active|].
  split; [exact Hc|]. split; [exact Hz|].
  exact (proj2 (RandomHost_needs_positive_weight (H:=chain) (λ _, Ok 0%Z)
                  hdbIdle eq_refl hdbIdle_active) Hc Hz).
Defined.

(** Rewinding the genesis block and [block1] on [hdb1]. *)
Lemma Update_rewind_waits_on_its_own_lock_witness :
  mu hdb1 = unlocked ∧
  Forall (λ b', @findHostAnnouncements chain 0 b' = Ok []) [genesis] ∧
  @findHostAnnouncements chain 0 block1 = Ok [hostA; hostB] ∧
  @Update chain 0 ([genesis] ++ block1 :: []) [] hdb1 =
    Blocked (@set_mu chain (mkRWMutex true 0) hdb1).
Proof.
  assert (Forall (λ b', @findHostAnnouncements chain 0 b' = Ok []) [genesis])
    as Hpre.
  { repeat constructor. }
  split; [reflexivity|]. split; [exact Hpre|]. split; [reflexivity|].
  exact (Update_rewind_waits_on_its_own_lock (H:=chain) 0 [genesis] [] []
           block1 hostA [hostB] hdb1 eq_refl Hpre eq_refl).
Defined.

(** * Properties of the connection handler *)

Import host.

Section host_properties.
Context `{Specifiers}.

Lemma switchId_unknown (c : Conn) (id : list byte) (h : Host) :
  id ∉ known → id ≠ rpcSettingsDeprecated →
  switchId c id h = (countUnrecognized h, [], [DebugUnknown id], None).
Proof.
  unfold known. rewrite !not_elem_of_cons.
  intros (? & ? & ? & ? & ? & ? & _) ?.
  unfold switchId. by rewrite !decide_False by done.
Qed.

Lemma switchId_deprecated (c : Conn) (h : Host) :
  rpcSettingsDeprecated ∉ known →
  switchId c rpcSettingsDeprecated h = (h, [], [DebugDeprecated], None).
Proof.
  unfold known. rewrite !not_elem_of_cons.
  intros (? & ? & ? & ? & ? & ? & _).
  unfold switchId. rewrite !decide_False by done. by rewrite decide_True.
Qed.

(** C8. A connection whose sixteen bytes are read and are neither a known
    specifier nor the deprecated one: the handler adds one to the
    unrecognized-call counter (a [uint64], so one more than before unless it
    was at its maximum), leaves the six per-RPC counters and the error counter
    as they were, invokes no RPC handler, and the connection is closed.  The
    deprecated settings specifier: no RPC handler is invoked and the host,
    with all its counters, is as before. *)
Theorem unrecognized_specifier_is_counted_once (c : Conn) (id : list byte) (h : Host) :
  tgAdd c = None → SetDeadline c = None → ReadObject c = inr id →
  (id ∉ known → id ≠ rpcSettingsDeprecated →
   let r := threadedHandleConn c h in
   atomicUnrecognizedCalls (after r) = AddUint64 (atomicUnrecognizedCalls h) 1 ∧
   ((0 ≤ atomicUnrecognizedCalls h < 2 ^ 64 - 1)%Z →
    atomicUnrecognizedCalls (after r) = (atomicUnrecognizedCalls h + 1)%Z) ∧
   atomicDownloadCalls (after r) = atomicDownloadCalls h ∧
   atomicRenewCalls (after r) = atomicRenewCalls h ∧
   atomicFormContractCalls (after r) = atomicFormContractCalls h ∧
   atomicReviseCalls (after r) = atomicReviseCalls h ∧
   atomicRecentRevisionCalls (after r) = atomicRecentRevisionCalls h ∧
   atomicSettingsCalls (after r) = atomicSettingsCalls h ∧
   atomicErroredCalls (after r) = atomicErroredCalls h ∧
   invoked r = [] ∧ connClosed r = true) ∧
  (rpcSettingsDeprecated ∉ known → id = rpcSettingsDeprecated →
   let r := threadedHandleConn c h in
   after r = h ∧ invoked r = [] ∧ logged r = [DebugDeprecated] ∧
   connClosed r = true).
Proof.
  intros Hadd Hdl Hread. unfold threadedHandleConn, handleConn.
  rewrite Hadd, Hdl, Hread. split.
  - intros Hk Hd. rewrite switchId_unknown by done. simpl.
    repeat split; try done.
    intros Hrange. unfold AddUint64. apply Z.mod_small. lia.
  - intros Hk ->. by rewrite switchId_deprecated.
Qed.

End host_properties.

Lemma ping_unknown : specifier "Ping" ∉ known (H:=protocol).
Proof. apply (bool_decide_unpack _). by vm_compute. Defined.

Lemma ping_not_deprecated : specifier "Ping" ≠ rpcSettingsDeprecated.
Proof. apply (bool_decide_unpack _). by vm_compute. Defined.

(** A connection that asks for an RPC named Ping, which the example protocol
    does not have. *)
Lemma unrecognized_specifier_is_counted_once_witness :
  tgAdd (sends (specifier "Ping")) = None ∧
  SetDeadline (sends (specifier "Ping")) = None ∧
  ReadObject (sends (specifier "Ping")) = inr (specifier "Ping") ∧
  (specifier "Ping" ∉ known (H:=protocol)) ∧
  specifier "Ping" ≠ rpcSettingsDeprecated ∧
  atomicUnrecognizedCalls
    (after (@threadedHandleConn protocol (sends (specifier "Ping")) quiet)) = 1%Z ∧
  atomicErroredCalls
    (after (@threadedHandleConn protocol (sends (specifier "Ping")) quiet)) = 0%Z ∧
  connClosed (@threadedHandleConn protocol (sends (specifier "Ping")) quiet) = true.
Proof.
  pose proof (proj1 (unrecognized_specifier_is_counted_once (H:=protocol)
                (sends (specifier "Ping")) (specifier "Ping") quiet
                eq_refl eq_refl eq_refl) ping_unknown ping_not_deprecated)
    as (Hu & _ & _ & _ & _ & _ & _ & _ & He & _ & Hc).
  split; [reflexivity|]. split; [reflexivity|]. split; [reflexivity|].
  split; [exact ping_unknown|]. split; [exact ping_not_deprecated|].
  split; [exact Hu|]. split; [exact He | exact Hc].
Defined.

(** The deprecated settings call on the example protocol: nothing is
    counted. *)
Lemma deprecated_specifier_is_ignored :
  after (@threadedHandleConn protocol (sends rpcSettingsDeprecated) quiet) = quiet ∧
  invoked (@threadedHandleConn protocol (sends rpcSettingsDeprecated) quiet) = [].
Proof. by vm_compute. Qed.

(** * Further properties of the host directory *)

Section hostdb_more.
Context `{Consensus}.

(** ** [New], [Insert] and [Remove] *)

(** What a successful [insert] leaves, whatever the lock. *)
Lemma insert_fresh (entry : HostEntry) (hdb : HostDB) :
  activeHosts hdb !! IPAddress entry = None →
  ∃ hdb', insert entry hdb = Returned None hdb' ∧
    activeHosts hdb' = <[IPAddress entry := freshPtr hdb]> (activeHosts hdb) ∧
    hostTree hdb' ≠ nilNode ∧
    inactiveHosts hdb' = inactiveHosts hdb ∧
    recentBlock hdb' = recentBlock hdb ∧ mu hdb' = mu hdb.
Proof.
  intros Ha. unfold insert. rewrite Ha.
  destruct (hostTree hdb) as [|q w e l r|q w l r] eqn:Ht.
  - eexists. split; [reflexivity|]. by repeat split.
  - eexists. split; [reflexivity|]. repeat split.
    cbn [hostTree set_tree]. by apply hn_insert_not_nil.
  - eexists. split; [reflexivity|]. repeat split.
    cbn [hostTree set_tree]. by apply hn_insert_not_nil.
Qed.

Lemma freshPtr_unindexed (hdb : HostDB) (addr : string) :
  activeHosts hdb !! addr ≠ Some (freshPtr hdb).
Proof.
  intros Ha. apply elem_of_map_to_list in Ha.
  apply (list_elem_of_fmap_2 snd) in Ha. simpl in Ha.
  assert (freshPtr hdb
            ∈ ptrs (hostTree hdb) ++ (map_to_list (activeHosts hdb)).*2) as Hin.
  { apply elem_of_app. by right. }
  apply max_list_elem_of_le in Hin. unfold freshPtr in Hin. lia.
Qed.

(** X1. [New] refuses a nil state.  On a state it gives a directory that is
    synchronized to the current block of the state and knows no host:
    removing any address reports not-found, drawing a host reports no-hosts,
    both without changing the directory, and any entry can be inserted. *)
Theorem New_directory (st : State) :
  New None = inl ErrNilState ∧
  ∃ hdb, New (Some st) = inr hdb ∧
    recentBlock hdb = blockID (CurrentBlock st) ∧
    (∀ addr, Remove addr hdb = Returned (Some ErrNotFound) hdb) ∧
    (∀ reader, RandomHost reader hdb
               = Returned (zeroEntry, Some ErrNoHosts) hdb) ∧
    (∀ entry, ∃ hdb', Insert entry hdb = Returned None hdb' ∧
                      is_Some (activeHosts hdb' !! IPAddress entry)).
Proof.
  split; [done|]. eexists. split; [reflexivity|]. split; [done|].
  split; [|split].
  - intros addr. rewrite Remove_free by done. unfold removeLocked. simpl.
    by rewrite !lookup_empty.
  - intros reader. rewrite RandomHost_unlocked by done. simpl.
    by rewrite map_size_empty.
  - intros entry. rewrite Insert_free by done.
    destruct (insert_fresh entry
                (mkHostDB st (blockID (CurrentBlock st)) nilNode ∅ ∅ unlocked))
      as (hdb' & Hi & Ha & _); [apply lookup_empty|].
    exists hdb'. split; [done|]. rewrite Ha, lookup_insert_eq. by eexists.
Qed.

(** X2. Inserting an entry whose address is not active, on a directory whose
    lock is free, succeeds: the address is indexed under a node that no
    address was indexed under before, every other address keeps its index
    entry, the index has one key more, the tree is not empty, and the inactive
    hosts, [recentBlock] and the lock are as before. *)
Theorem Insert_fresh (entry : HostEntry) (hdb : HostDB) :
  mu hdb = unlocked →
  activeHosts hdb !! IPAddress entry = None →
  ∃ node hdb', Insert entry hdb = Returned None hdb' ∧
    activeHosts hdb' !! IPAddress entry = Some node ∧
    (∀ addr, activeHosts hdb !! addr ≠ Some node) ∧
    (∀ addr, addr ≠ IPAddress entry →
       activeHosts hdb' !! addr = activeHosts hdb !! addr) ∧
    size (activeHosts hdb') = S (size (activeHosts hdb)) ∧
    hostTree hdb' ≠ nilNode ∧
    inactiveHosts hdb' = inactiveHosts hdb ∧
    recentBlock hdb' = recentBlock hdb ∧
    mu hdb' = unlocked.
Proof.
  intros Hmu Ha. rewrite Insert_free by done.
  destruct (insert_fresh entry hdb Ha) as (hdb' & -> & Ha' & Ht & Hi & Hr & Hm).
  exists (freshPtr hdb), hdb'. split; [done|]. rewrite Ha'.
  split; [apply lookup_insert_eq|].
  split; [apply freshPtr_unindexed|].
  split; [intros addr Hne; by apply lookup_insert_ne|].
  split; [by apply map_size_insert_None|].
  repeat split; congruence.
Qed.

(** X3. After a successful [Insert], inserting any entry with the same
    address is refused as a duplicate and changes nothing. *)
Theorem Insert_twice (entry entry' : HostEntry) (hdb : HostDB) :
  mu hdb = unlocked →
  activeHosts hdb !! IPAddress entry = None →
  IPAddress entry' = IPAddress entry →
  ∃ hdb', Insert entry hdb = Returned None hdb' ∧
          Insert entry' hdb' = Returned (Some ErrDuplicate) hdb'.
Proof.
  intros Hmu Ha Hsame. rewrite Insert_free by done.
  destruct (insert_fresh entry hdb Ha) as (hdb' & -> & Ha' & _ & _ & _ & Hm).
  exists hdb'. split; [done|]. rewrite Insert_free by congruence.
  unfold insert. by rewrite Hsame, Ha', lookup_insert_eq.
Qed.

(** X4. Inserting an entry whose address is not active and removing that
    address again gives back the index, the inactive hosts, [recentBlock] and
    the free lock; both calls succeed. *)
Theorem Insert_then_Remove (entry : HostEntry) (hdb : HostDB) :
  mu hdb = unlocked →
  activeHosts hdb !! IPAddress entry = None →
  ∃ hdb1 hdb2,
    Insert entry hdb = Returned None hdb1 ∧
    Remove (IPAddress entry) hdb1 = Returned None hdb2 ∧
    activeHosts hdb2 = activeHosts hdb ∧
    inactiveHosts hdb2 = inactiveHosts hdb ∧
    recentBlock hdb2 = recentBlock hdb ∧
    mu hdb2 = unlocked.
Proof.
  intros Hmu Ha. rewrite Insert_free by done.
  destruct (insert_fresh entry hdb Ha) as (hdb1 & -> & Ha1 & _ & Hi & Hr & Hm).
  exists hdb1. eexists. split; [done|].
  rewrite Remove_free by congruence. unfold removeLocked.
  rewrite Ha1, lookup_insert_eq. split; [reflexivity|].
  cbn [activeHosts inactiveHosts recentBlock mu set_tree].
  split; [by apply delete_insert_id|]. repeat split; congruence.
Qed.

(** X5. Removing an address that is active and not inactive succeeds once: a
    second [Remove], or a [FlagHost], of the same address reports not-found
    and changes nothing. *)
Theorem Remove_twice (addr : string) (node : nat) (hdb : HostDB) :
  mu hdb = unlocked →
  activeHosts hdb !! addr = Some node →
  inactiveHosts hdb !! addr = None →
  ∃ hdb', Remove addr hdb = Returned None hdb' ∧
          Remove addr hdb' = Returned (Some ErrNotFound) hdb' ∧
          FlagHost addr hdb' = Returned (Some ErrNotFound) hdb'.
Proof.
  intros Hmu Ha Hi. rewrite Remove_free by done. unfold removeLocked at 1.
  rewrite Ha. eexists. split; [reflexivity|]. unfold FlagHost.
  rewrite Remove_free by done. unfold removeLocked.
  cbn [activeHosts inactiveHosts set_tree]. by rewrite lookup_delete_eq, Hi.
Qed.

(** ** The lock *)

Lemma RLock_held {A} (body : M A) (hdb : HostDB) :
  writer (mu hdb) = true → locked RLock RUnlock body hdb = Blocked hdb.
Proof. intros Hw. unfold locked, RLock. by rewrite Hw. Qed.

Lemma Lock_read_held {A} (body : M A) (hdb : HostDB) :
  readers (mu hdb) ≠ 0%nat → locked Lock Unlock body hdb = Blocked hdb.
Proof.
  intros Hr. unfold locked, Lock.
  destruct (readers (mu hdb)); [done|]. by rewrite orb_true_r.
Qed.

(** X6. While a writer holds the lock every method of the directory waits:
    [Insert], [Remove], [FlagHost], [Update] and [RandomHost] all block on
    their first statement and leave the directory untouched. *)
Theorem writer_excludes_all (hdb : HostDB) :
  writer (mu hdb) = true →
  (∀ entry, Insert entry hdb = Blocked hdb) ∧
  (∀ addr, Remove addr hdb = Blocked hdb) ∧
  (∀ addr, FlagHost addr hdb = Blocked hdb) ∧
  (∀ h rewound applied, Update h rewound applied hdb = Blocked hdb) ∧
  (∀ reader, RandomHost reader hdb = Blocked hdb).
Proof.
  intros Hw. repeat split; intros; try by apply locked_held.
  by apply RLock_held.
Qed.

(** X7. While readers hold the lock, the mutating methods wait: [Insert],
    [Remove], [FlagHost] and [Update] all block on their first statement and
    leave the directory, reader count included, untouched. *)
Theorem readers_exclude_writers (hdb : HostDB) :
  readers (mu hdb) ≠ 0%nat →
  (∀ entry, Insert entry hdb = Blocked hdb) ∧
  (∀ addr, Remove addr hdb = Blocked hdb) ∧
  (∀ addr, FlagHost addr hdb = Blocked hdb) ∧
  (∀ h rewound applied, Update h rewound applied hdb = Blocked hdb).
Proof. intros Hr. repeat split; intros; by apply Lock_read_held. Qed.

Lemma RandomHost_final (reader : Z → result Z) (hdb : HostDB) :
  final (RandomHost reader hdb) = hdb.
Proof.
  destruct (writer (mu hdb)) eqn:Hw.
  - unfold RandomHost. by rewrite RLock_held.
  - rewrite RandomHost_unlocked by done.
    destruct (Nat.eqb (size (activeHosts hdb)) 0); [done|].
    destruct (hostTree hdb); [done|..];
      by destruct (randInt reader (drawBound hdb)).
Qed.

(** X8. [RandomHost] is read-only: however it ends (it returns, waits for a
    writer, or panics), on whatever directory and with whatever entropy
    source, the directory is exactly as before. *)
Theorem RandomHost_changes_nothing (reader : Z → result Z) (hdb : HostDB) :
  final (RandomHost reader hdb) = hdb ∧
  ∀ r hdb', RandomHost reader hdb = Returned r hdb' → hdb' = hdb.
Proof.
  pose proof (RandomHost_final reader hdb) as Hf. split; [done|].
  intros r hdb' Hr. by rewrite Hr in Hf.
Qed.

Lemma mu_Unlock (hdb : HostDB) :
  mu hdb = mkRWMutex true 0 → mu (Unlock hdb) = unlocked.
Proof. unfold Unlock. simpl. by intros ->. Qed.

Lemma keeps_mu_removeLocked addr : keeps mu (removeLocked addr).
Proof. intros hdb. unfold removeLocked. by repeat case_match. Qed.

(** Whatever runs under the write lock without touching the mutex: the call
    either never gets the lock back from a callee, or ends with the lock
    free. *)
Lemma locked_releases {A} (body : M A) (hdb : HostDB) :
  mu hdb = unlocked →
  (∀ hdb0, (∃ hdb', body hdb0 = Blocked hdb') ∨
           mu (final (body hdb0)) = mu hdb0) →
  (∃ hdb', locked Lock Unlock body hdb = Blocked hdb') ∨
  mu (final (locked Lock Unlock body hdb)) = unlocked.
Proof.
  intros Hmu Hbody. rewrite locked_free by done.
  destruct (Hbody (set_mu (mkRWMutex true 0) hdb)) as [[hdb' Hb]|Hm].
  { left. rewrite Hb. by eauto. }
  destruct (body (set_mu (mkRWMutex true 0) hdb)) as [a hdb2|hdb2|hdb2];
    simpl in *; [right; by apply mu_Unlock | by eauto | right; by apply mu_Unlock].
Qed.

Lemma bind_blocked_or_keeps_mu {A B} (m : M A) (k : A → M B) :
  (∀ hdb, (∃ hdb', m hdb = Blocked hdb') ∨ mu (final (m hdb)) = mu hdb) →
  (∀ a hdb, (∃ hdb', k a hdb = Blocked hdb') ∨ mu (final (k a hdb)) = mu hdb) →
  ∀ hdb, (∃ hdb', bind m k hdb = Blocked hdb') ∨
         mu (final (bind m k hdb)) = mu hdb.
Proof.
  intros Hm Hk hdb. unfold bind.
  destruct (Hm hdb) as [[hdb' Hb]|Hmu].
  { left. rewrite Hb. by eauto. }
  destruct (m hdb) as [a hdb1|hdb1|hdb1]; simpl in *; [|by eauto|by right].
  destruct (Hk a hdb1) as [[hdb' Hb]|Hmu']; [by eauto|].
  right. congruence.
Qed.

Lemma Remove_blocked_or_keeps_mu (addr : string) (hdb : HostDB) :
  (∃ hdb', Remove addr hdb = Blocked hdb') ∨
  mu (final (Remove addr hdb)) = mu hdb.
Proof.
  unfold Remove, locked, Lock.
  destruct (writer (mu hdb) || negb (Nat.eqb (readers (mu hdb)) 0)) eqn:Hl.
  { left. by eauto. }
  right. apply orb_false_elim in Hl as [Hw Hr].
  apply negb_false_iff, Nat.eqb_eq in Hr.
  rewrite removeLocked_set_mu. unfold removeLocked.
  destruct (activeHosts hdb !! addr);
    [|destruct (inactiveHosts hdb !! addr)];
    simpl; destruct (mu hdb) as [w r]; simpl in *; congruence.
Qed.

Lemma rewindEntries_blocked_or_keeps_mu (es : list HostEntry) (hdb : HostDB) :
  (∃ hdb', rewindEntries es hdb = Blocked hdb') ∨
  mu (final (rewindEntries es hdb)) = mu hdb.
Proof.
  revert hdb. induction es as [|e es IH]; intros hdb; [by right|].
  apply bind_blocked_or_keeps_mu; [apply Remove_blocked_or_keeps_mu|].
  intros [err|] hdb0; [by right | apply IH].
Qed.

Lemma rewindBlocks_blocked_or_keeps_mu (h : BlockHeight) (bs : list Block)
    (hdb : HostDB) :
  (∃ hdb', rewindBlocks h bs hdb = Blocked hdb') ∨
  mu (final (rewindBlocks h bs hdb)) = mu hdb.
Proof.
  revert hdb. induction bs as [|b bs IH]; intros hdb; [by right|]. simpl.
  destruct (findHostAnnouncements h b) as [es|msg]; [|by right].
  apply bind_blocked_or_keeps_mu; [apply rewindEntries_blocked_or_keeps_mu|].
  intros [err|] hdb0; [by right | apply IH].
Qed.

(** X9. No return path leaks the lock.  Called on a directory whose lock is
    free, [Insert], [Remove], [FlagHost] and [RandomHost] never block and
    leave the lock free however they end (also when [RandomHost] panics), and
    [Update] leaves it free whenever it returns at all. *)
Theorem lock_is_released (hdb : HostDB) :
  mu hdb = unlocked →
  (∀ entry, ∃ err hdb', Insert entry hdb = Returned err hdb' ∧
                        mu hdb' = unlocked) ∧
  (∀ addr, ∃ err hdb', Remove addr hdb = Returned err hdb' ∧
                       mu hdb' = unlocked) ∧
  (∀ addr, ∃ err hdb', FlagHost addr hdb = Returned err hdb' ∧
                       mu hdb' = unlocked) ∧
  (∀ reader, mu (final (RandomHost reader hdb)) = unlocked ∧
             ∀ hdb', RandomHost reader hdb ≠ Blocked hdb') ∧
  (∀ h rewound applied err hdb',
     Update h rewound applied hdb = Returned err hdb' → mu hdb' = unlocked).
Proof.
  intros Hmu.
  assert (∀ addr, ∃ err hdb', Remove addr hdb = Returned err hdb' ∧
                              mu hdb' = unlocked) as Hrm.
  { intros addr. rewrite Remove_free by done.
    pose proof (keeps_mu_removeLocked addr hdb) as Hk.
    unfold removeLocked in *.
    destruct (activeHosts hdb !! addr); [by eauto|].
    destruct (inactiveHosts hdb !! addr); by eauto. }
  split; [|split; [done|split; [done|split]]].
  - intros entry. rewrite Insert_free by done.
    destruct (insert_returns entry hdb) as (err & hdb' & -> & Hm).
    exists err, hdb'. split; [done | congruence].
  - intros reader. split.
    + by rewrite (RandomHost_final reader hdb).
    + intros hdb'. rewrite RandomHost_unlocked by (by rewrite Hmu).
      destruct (Nat.eqb (size (activeHosts hdb)) 0); [done|].
      destruct (hostTree hdb); [done|..];
        by destruct (randInt reader (drawBound hdb)).
  - intros h rewound applied err hdb' Hup.
    destruct (locked_releases
                (orReturn (rewindBlocks h rewound) (applyBlocks h applied))
                hdb Hmu) as [[hdb0 Hb]|Hm].
    + intros hdb0.
      apply bind_blocked_or_keeps_mu; [apply rewindBlocks_blocked_or_keeps_mu|].
      intros [e|] hdb1; [by right|]. right.
      destruct (applyBlocks_returns h applied hdb1) as (e' & hdb2 & -> & Hm).
      done.
    + unfold Update in Hup. congruence.
    + unfold Update in Hup. by rewrite Hup in Hm.
Qed.

(** ** Drawing a host *)

(** X10. When the entropy source fails, [RandomHost] hands its error on: on a
    directory with an active host, a tree and a draw bound above 1, the call
    returns the zero entry with the reader's error and changes nothing.  At
    the bound 1 the source is not read at all ([rand.Int] has only 0 to
    return): the call then returns what the tree has at weight 0, whatever
    the source would have done. *)
Theorem RandomHost_reader_fails (reader : Z → result Z) (msg : string)
    (hdb : HostDB) :
  writer (mu hdb) = false →
  activeHosts hdb ≠ ∅ →
  hostTree hdb ≠ nilNode →
  ((1 < drawBound hdb)%Z →
   reader (drawBound hdb) = Err msg →
   RandomHost reader hdb = Returned (zeroEntry, Some (ErrReader msg)) hdb) ∧
  (drawBound hdb = 1%Z →
   RandomHost reader hdb = Returned (entryAtWeight 0 (hostTree hdb)) hdb).
Proof.
  intros Hw Hne Ht. rewrite RandomHost_unlocked by done.
  assert (Nat.eqb (size (activeHosts hdb)) 0 = false) as ->.
  { apply Nat.eqb_neq. by rewrite map_size_empty_iff. }
  unfold randInt. split.
  - intros Hb Hr. rewrite Hr.
    destruct (drawBound hdb <=? 0)%Z eqn:Hle; [lia|].
    destruct (drawBound hdb =? 1)%Z eqn:Hone; [lia|].
    by destruct (hostTree hdb).
  - intros ->. simpl. by destruct (hostTree hdb).
Qed.

(** ** The inactive hosts *)

Lemma shrinks_ret {A} (a : A) : shrinks (ret a).
Proof. by intros hdb. Qed.

Lemma shrinks_bind {A B} (m : M A) (k : A → M B) :
  shrinks m → (∀ a, shrinks (k a)) → shrinks (bind m k).
Proof.
  intros Hm Hk hdb. unfold bind.
  specialize (Hm hdb). destruct (m hdb) as [a hdb'| |]; simpl in *; try done.
  etrans; [apply Hk | done].
Qed.

Lemma shrinks_orReturn (m k : M (option error)) :
  shrinks m → shrinks k → shrinks (orReturn m k).
Proof.
  intros Hm Hk. apply shrinks_bind; [done|].
  intros [e|]; [apply shrinks_ret | done].
Qed.

Lemma shrinks_locked {A} (lock : M unit) (unlock : HostDB → HostDB)
    (body : M A) :
  shrinks lock → (∀ hdb, inactiveHosts (unlock hdb) = inactiveHosts hdb) →
  shrinks body → shrinks (locked lock unlock body).
Proof.
  intros Hl Hu Hb hdb. unfold locked.
  specialize (Hl hdb). destruct (lock hdb) as [[] hdb1| |]; simpl in *; try done.
  specialize (Hb hdb1).
  destruct (body hdb1) as [a hdb2| |]; simpl in *; rewrite ?Hu;
    by (etrans; [apply Hb | done]).
Qed.

Lemma shrinks_Lock : shrinks Lock.
Proof. intros hdb. unfold Lock. by case_match. Qed.

Lemma shrinks_insert entry : shrinks (insert entry).
Proof. intros hdb. unfold insert. by repeat case_match. Qed.

Lemma shrinks_Insert entry : shrinks (Insert entry).
Proof.
  apply shrinks_locked; [apply shrinks_Lock | done | apply shrinks_insert].
Qed.

Lemma shrinks_Remove addr : shrinks (Remove addr).
Proof.
  apply shrinks_locked; [apply shrinks_Lock | done |].
  intros hdb. unfold removeLocked. repeat case_match; simpl; try done.
  apply delete_subseteq.
Qed.

Lemma shrinks_Update h rewound applied : shrinks (Update h rewound applied).
Proof.
  apply shrinks_locked; [apply shrinks_Lock | done |].
  apply shrinks_orReturn.
  - induction rewound as [|b bs IH]; simpl; [apply shrinks_ret|].
    destruct (findHostAnnouncements h b) as [es|]; [|apply shrinks_ret].
    apply shrinks_orReturn; [|done].
    induction es as [|e es IHes]; simpl; [apply shrinks_ret|].
    apply shrinks_orReturn; [apply shrinks_Remove | done].
  - induction applied as [|b bs IH]; simpl; [apply shrinks_ret|].
    destruct (findHostAnnouncements h b) as [es|]; [|apply shrinks_ret].
    apply shrinks_orReturn; [|done].
    induction es as [|e es IHes]; simpl; [apply shrinks_ret|].
    apply shrinks_orReturn; [apply shrinks_insert | done].
Qed.

Lemma shrinks_calls (os : list op) : shrinks (calls os).
Proof.
  induction os as [|o os IH]; simpl; [apply shrinks_ret|].
  apply shrinks_bind.
  - destruct o; [apply shrinks_Insert | apply shrinks_Remove].
  - intros err. apply shrinks_bind; [done|]. intros errs. apply shrinks_ret.
Qed.

(** X11. No method ever adds an inactive host: after [Insert], [Remove],
    [FlagHost], [Update] or [RandomHost], however the call ends, every
    inactive host was inactive before, with the same entry. *)
Theorem inactiveHosts_never_grows (hdb : HostDB) :
  (∀ entry, inactiveHosts (final (Insert entry hdb)) ⊆ inactiveHosts hdb) ∧
  (∀ addr, inactiveHosts (final (Remove addr hdb)) ⊆ inactiveHosts hdb) ∧
  (∀ addr, inactiveHosts (final (FlagHost addr hdb)) ⊆ inactiveHosts hdb) ∧
  (∀ h rewound applied,
     inactiveHosts (final (Update h rewound applied hdb)) ⊆ inactiveHosts hdb) ∧
  (∀ reader,
     inactiveHosts (final (RandomHost reader hdb)) ⊆ inactiveHosts hdb).
Proof.
  split; [intros; apply shrinks_Insert|].
  split; [intros; apply shrinks_Remove|].
  split; [intros; apply shrinks_Remove|].
  split; [intros; apply shrinks_Update|].
  intros reader. by rewrite RandomHost_final.
Qed.

(** X12. A directory built by [New] and used through [Insert] and [Remove]
    never has an inactive host, so on it [Remove] and [FlagHost] of an
    address that is not active always report not-found. *)
Theorem inactiveHosts_stays_empty (st : State) (os : list op) :
  ∃ hdb0 errs hdb,
    New (Some st) = inr hdb0 ∧
    calls os hdb0 = Returned errs hdb ∧
    inactiveHosts hdb = ∅ ∧
    (∀ addr, activeHosts hdb !! addr = None →
       Remove addr hdb = Returned (Some ErrNotFound) hdb ∧
       FlagHost addr hdb = Returned (Some ErrNotFound) hdb).
Proof.
  eexists.
  destruct (wellFormed_calls os _ (wellFormed_New st _ eq_refl))
    as (errs & hdb & Hcalls & _ & Hmu).
  exists errs, hdb. split; [reflexivity|]. split; [exact Hcalls|].
  assert (inactiveHosts hdb = ∅) as Hi.
  { pose proof (shrinks_calls os
                  (mkHostDB st (blockID (CurrentBlock st)) nilNode ∅ ∅ unlocked))
      as Hs.
    rewrite Hcalls in Hs. simpl in Hs.
    apply map_eq. intros a. rewrite lookup_empty.
    destruct (inactiveHosts hdb !! a) as [e|] eqn:He; [|done].
    apply (lookup_weaken _ _ _ _ He) in Hs. by rewrite lookup_empty in Hs. }
  split; [done|]. intros addr Ha. unfold FlagHost.
  rewrite Remove_free by done. unfold removeLocked.
  by rewrite Ha, Hi, lookup_empty.
Qed.

(** ** [Update] *)

Lemma applyEntries_set_mu (m : RWMutex) (es : list HostEntry) (hdb : HostDB) :
  applyEntries es (set_mu m hdb) =
    match applyEntries es hdb with
    | Returned a hdb' => Returned a (set_mu m hdb')
    | Blocked hdb' => Blocked (set_mu m hdb')
    | Panicked hdb' => Panicked (set_mu m hdb')
    end.
Proof.
  revert hdb. induction es as [|e es IH]; intros hdb; simpl; [done|].
  unfold orReturn, bind, ret. rewrite insert_set_mu.
  destruct (insert e hdb) as [[err|] hdb'| |]; first [done | apply IH].
Qed.

(** When every applied block can be read, the second loop of [Update] is one
    pass over all the announced entries. *)
Lemma applyBlocks_as_entries (h : BlockHeight) (bs : list Block) (hdb : HostDB) :
  Forall (λ b, ∃ es, findHostAnnouncements h b = Ok es) bs →
  applyBlocks h bs hdb = applyEntries (announced h bs) hdb.
Proof.
  intros Hok. revert hdb. induction Hok as [|b bs [es Hb] _ IH]; intros hdb.
  { done. }
  simpl. rewrite Hb, applyEntries_app. unfold orReturn, bind, ret.
  destruct (applyEntries es hdb) as [[err|] hdb'| |]; first [done | apply IH].
Qed.

Lemma Update_apply_only (h : BlockHeight) (applied : list Block) (hdb : HostDB) :
  mu hdb = unlocked →
  Forall (λ b, ∃ es, findHostAnnouncements h b = Ok es) applied →
  Update h [] applied hdb = applyEntries (announced h applied) hdb.
Proof.
  intros Hmu Hok. unfold Update. rewrite locked_free by done.
  unfold orReturn, bind, ret. simpl.
  rewrite applyBlocks_as_entries, applyEntries_set_mu by done.
  destruct (applyEntries_returns (announced h applied) hdb)
    as (err & hdb' & -> & Hm).
  by rewrite Unlock_locked by congruence.
Qed.

Lemma applyEntries_calls (es : list HostEntry) (hdb hdb1 : HostDB) :
  mu hdb = unlocked →
  applyEntries es hdb = Returned None hdb1 ↔
  calls (OpInsert <$> es) hdb = Returned (replicate (length es) None) hdb1.
Proof.
  revert hdb. induction es as [|e es IH]; intros hdb Hmu.
  { simpl. unfold ret. split; by intros [= <-]. }
  rewrite fmap_cons. cbn [applyEntries calls call length replicate].
  unfold orReturn, bind, ret. rewrite Insert_free by done.
  destruct (insert_returns e hdb) as (err & hdb' & -> & Hm).
  destruct err as [err|].
  { split; [done|].
    destruct (calls (OpInsert <$> es) hdb') as [errs hdb2| |]; done. }
  rewrite (IH hdb') by congruence.
  destruct (calls (OpInsert <$> es) hdb') as [errs hdb2| |].
  - split; [by intros [= -> ->] | by intros [= -> ->]].
  - split; done.
  - split; done.
Qed.

(** X13. Applying blocks is inserting their entries one by one.  On a
    directory whose lock is free and with blocks that can all be read,
    [Update] without rewound blocks succeeds with a certain directory exactly
    when the [Insert] calls for the announced entries, made in the order of
    the blocks, all succeed and give that directory. *)
Theorem Update_applies_like_Inserts (h : BlockHeight) (applied : list Block)
    (hdb hdb1 : HostDB) :
  mu hdb = unlocked →
  Forall (λ b, ∃ es, findHostAnnouncements h b = Ok es) applied →
  Update h [] applied hdb = Returned None hdb1 ↔
  calls (OpInsert <$> announced h applied) hdb
    = Returned (replicate (length (announced h applied)) None) hdb1.
Proof.
  intros Hmu Hok. rewrite Update_apply_only by done.
  by apply applyEntries_calls.
Qed.

(** Entries with pairwise distinct addresses, none of them active, are all
    applied. *)
Lemma applyEntries_fresh (es : list HostEntry) (hdb : HostDB) :
  NoDup (IPAddress <$> es) →
  (∀ a, a ∈ IPAddress <$> es → activeHosts hdb !! a = None) →
  ∃ hdb1, applyEntries es hdb = Returned None hdb1 ∧
    mu hdb1 = mu hdb ∧
    (∀ a, a ∈ IPAddress <$> es → is_Some (activeHosts hdb1 !! a)) ∧
    (∀ a, a ∉ IPAddress <$> es → activeHosts hdb1 !! a = activeHosts hdb !! a) ∧
    size (activeHosts hdb1) = (size (activeHosts hdb) + length es)%nat.
Proof.
  revert hdb. induction es as [|e es IH]; intros hdb Hnd Hfree.
  { exists hdb. split; [done|]. split; [done|].
    split; [intros a Ha; by apply elem_of_nil in Ha|].
    split; [done | simpl; lia]. }
  rewrite fmap_cons in Hnd. apply NoDup_cons in Hnd as [He Hnd].
  destruct (insert_fresh e hdb) as (hdb' & Hi & Ha' & _ & _ & _ & Hm).
  { apply Hfree. rewrite fmap_cons. by left. }
  destruct (IH hdb' Hnd) as (hdb1 & Happ & Hm1 & Hin & Hout & Hsz).
  { intros a Ha. rewrite Ha', lookup_insert_ne; [|by intros <-].
    apply Hfree. rewrite fmap_cons. by right. }
  exists hdb1. split.
  { simpl. unfold orReturn, bind, ret. by rewrite Hi. }
  split; [congruence|]. split; [|split].
  - intros a. rewrite fmap_cons. intros [->|Ha]%elem_of_cons; [|by apply Hin].
    rewrite Hout by done. rewrite Ha', lookup_insert_eq. by eexists.
  - intros a. rewrite fmap_cons. intros [Hne Ha]%not_elem_of_cons.
    rewrite Hout by done. rewrite Ha'. by apply lookup_insert_ne.
  - rewrite Hsz, Ha'. rewrite map_size_insert_None; [simpl; lia|].
    apply Hfree. rewrite fmap_cons. by left.
Qed.

(** X14. A failed [Update] is not rolled back.  When a block announces
    entries with new, pairwise distinct addresses and then an entry whose
    address is one of these or is already active, [Update] returns the
    duplicate error, and the entries before the duplicate stay active: the
    index has grown by their number.  The lock is released. *)
Theorem Update_keeps_partial_batch (h : BlockHeight) (b : Block)
    (bs : list Block) (es rest : list HostEntry) (e : HostEntry) (hdb : HostDB) :
  mu hdb = unlocked →
  findHostAnnouncements h b = Ok (es ++ e :: rest) →
  NoDup (IPAddress <$> es) →
  (∀ a, a ∈ IPAddress <$> es → activeHosts hdb !! a = None) →
  IPAddress e ∈ IPAddress <$> es ∨ is_Some (activeHosts hdb !! IPAddress e) →
  ∃ hdb', Update h [] (b :: bs) hdb = Returned (Some ErrDuplicate) hdb' ∧
    (∀ a, a ∈ IPAddress <$> es → is_Some (activeHosts hdb' !! a)) ∧
    size (activeHosts hdb') = (size (activeHosts hdb) + length es)%nat ∧
    mu hdb' = unlocked.
Proof.
  intros Hmu Hb Hnd Hfree Hdup.
  destruct (applyEntries_fresh es hdb Hnd Hfree)
    as (hdb1 & Happ & Hm1 & Hin & Hout & Hsz).
  assert (is_Some (activeHosts hdb1 !! IPAddress e)) as [p Hp].
  { destruct (decide (IPAddress e ∈ IPAddress <$> es)) as [He|He].
    - by apply Hin.
    - rewrite Hout by done. by destruct Hdup. }
  exists hdb1. split; [|by rewrite Hm1].
  unfold Update. rewrite locked_free by done.
  unfold orReturn, bind, ret. simpl. rewrite Hb.
  unfold orReturn, bind, ret. rewrite applyEntries_app.
  unfold orReturn, bind, ret. rewrite applyEntries_set_mu, Happ. simpl.
  unfold orReturn, bind, ret. rewrite insert_set_mu. unfold insert.
  rewrite Hp. by rewrite Unlock_locked by congruence.
Qed.

(** X15. An unreadable block stops [Update] before it changes anything.  If
    the blocks rewound before it announce nothing, an unreadable rewound
    block makes [Update] return the extraction error with the directory as
    it was, whatever was to be applied; the same holds for an unreadable
    first applied block when the rewound blocks announce nothing. *)
Theorem Update_unreadable_block (h : BlockHeight) (b : Block) (msg : string)
    (hdb : HostDB) :
  mu hdb = unlocked →
  findHostAnnouncements h b = Err msg →
  (∀ pre post applied,
     Forall (λ b', findHostAnnouncements h b' = Ok []) pre →
     Update h (pre ++ b :: post) applied hdb
       = Returned (Some (ErrAnnouncements msg)) hdb) ∧
  (∀ rewound post,
     Forall (λ b', findHostAnnouncements h b' = Ok []) rewound →
     Update h rewound (b :: post) hdb
       = Returned (Some (ErrAnnouncements msg)) hdb).
Proof.
  intros Hmu Hb. split.
  - intros pre post applied Hpre. unfold Update. rewrite locked_free by done.
    unfold orReturn, bind.
    assert (∀ hdb0, rewindBlocks h (pre ++ b :: post) hdb0
                    = Returned (Some (ErrAnnouncements msg)) hdb0) as ->.
    { intros hdb0. induction Hpre as [|b' pre Hb' _ IH]; simpl.
      - by rewrite Hb.
      - rewrite Hb'. unfold orReturn, bind, ret. simpl. exact IH. }
    unfold ret. by rewrite Unlock_locked.
  - intros rewound post Hre. unfold Update. rewrite locked_free by done.
    unfold orReturn, bind. rewrite rewindBlocks_nothing by done.
    simpl. rewrite Hb. unfold ret. by rewrite Unlock_locked.
Qed.

(** What a successful pass over [es] says about the index, on any
    directory. *)
Lemma applyEntries_index (es : list HostEntry) (hdb hdb1 : HostDB) :
  applyEntries es hdb = Returned None hdb1 →
  mu hdb1 = mu hdb ∧ inactiveHosts hdb1 = inactiveHosts hdb ∧
  recentBlock hdb1 = recentBlock hdb ∧
  NoDup (IPAddress <$> es) ∧
  (∀ a, a ∈ IPAddress <$> es →
     activeHosts hdb !! a = None ∧ is_Some (activeHosts hdb1 !! a)) ∧
  (∀ a, a ∉ IPAddress <$> es → activeHosts hdb1 !! a = activeHosts hdb !! a).
Proof.
  revert hdb. induction es as [|e es IH]; intros hdb; simpl.
  { intros [= <-]. split; [done|]. split; [done|]. split; [done|].
    split; [apply NoDup_nil_2|]. split; [|done].
    intros a Ha. by apply elem_of_nil in Ha. }
  unfold orReturn, bind, ret.
  destruct (activeHosts hdb !! IPAddress e) as [q|] eqn:Hq.
  { unfold insert. by rewrite Hq. }
  destruct (insert_fresh e hdb Hq) as (hdb' & -> & Ha' & _ & Hi' & Hr' & Hm').
  intros Happ.
  destruct (IH hdb' Happ) as (Hm1 & Hi1 & Hr1 & Hnd & Hin & Hout).
  assert (IPAddress e ∉ IPAddress <$> es) as Hfresh.
  { intros Hin'. apply Hin in Hin' as [Hnone _].
    by rewrite Ha', lookup_insert_eq in Hnone. }
  split; [congruence|]. split; [congruence|]. split; [congruence|].
  split; [by apply NoDup_cons|]. split.
  - intros a [->|Ha]%elem_of_cons.
    + split; [done|]. rewrite Hout by done. rewrite Ha', lookup_insert_eq.
      by eexists.
    + destruct (Hin a Ha) as [Hnone Hsome]. split; [|done].
      rewrite Ha' in Hnone. by apply lookup_insert_None in Hnone as [? _].
  - intros a [Hne Ha]%not_elem_of_cons. rewrite Hout by done.
    rewrite Ha'. by apply lookup_insert_ne.
Qed.

Lemma Remove_all_index (rs : list string) (hdb1 : HostDB) :
  mu hdb1 = unlocked → NoDup rs →
  (∀ a, a ∈ rs → is_Some (activeHosts hdb1 !! a)) →
  ∃ hdb2,
    calls (OpRemove <$> rs) hdb1 = Returned (replicate (length rs) None) hdb2 ∧
    mu hdb2 = unlocked ∧ inactiveHosts hdb2 = inactiveHosts hdb1 ∧
    recentBlock hdb2 = recentBlock hdb1 ∧
    (∀ a, a ∈ rs → activeHosts hdb2 !! a = None) ∧
    (∀ a, a ∉ rs → activeHosts hdb2 !! a = activeHosts hdb1 !! a).
Proof.
  revert hdb1. induction rs as [|r rs IH]; intros hdb1 Hmu Hnd Hact.
  { exists hdb1. split; [done|]. split; [done|]. split; [done|].
    split; [done|]. split; [|done]. intros a Ha. by apply elem_of_nil in Ha. }
  apply NoDup_cons in Hnd as [Hr Hnd].
  destruct (Hact r) as [p Hp]; [by left|].
  destruct (IH (set_tree (hn_remove p (hostTree hdb1))
                  (delete r (activeHosts hdb1)) hdb1))
    as (hdb2 & Hcalls & Hm2 & Hi2 & Hr2 & Hin & Hout).
  { done. }
  { done. }
  { intros a Ha. cbn [activeHosts set_tree].
    rewrite lookup_delete_ne; [apply Hact; by right|]. by intros ->. }
  exists hdb2. split.
  { rewrite fmap_cons. cbn [calls call length replicate].
    unfold bind, ret. rewrite Remove_free by done.
    unfold removeLocked. by rewrite Hp, Hcalls. }
  split; [done|]. split; [done|]. split; [done|]. split.
  - intros a [->|Ha]%elem_of_cons; [|by apply Hin].
    rewrite Hout by done. apply lookup_delete_eq.
  - intros a [Hne Ha]%not_elem_of_cons. rewrite Hout by done.
    by apply lookup_delete_ne.
Qed.

(** X16. Rewinding by hand works on every directory.  After an [Update] that
    applied blocks successfully, removing the announced addresses by
    [Remove] calls of their own, in whatever order, succeeds for each of
    them and gives back exactly the index and the inactive hosts from before
    the [Update], with [recentBlock] and the free lock. *)
Theorem Update_then_Remove_restores_index (h : BlockHeight)
    (applied : list Block) (rs : list string) (hdb hdb1 : HostDB) :
  mu hdb = unlocked →
  Update h [] applied hdb = Returned None hdb1 →
  rs ≡ₚ IPAddress <$> announced h applied →
  ∃ hdb2,
    calls (OpRemove <$> rs) hdb1 = Returned (replicate (length rs) None) hdb2 ∧
    activeHosts hdb2 = activeHosts hdb ∧
    inactiveHosts hdb2 = inactiveHosts hdb ∧
    recentBlock hdb2 = recentBlock hdb ∧
    mu hdb2 = unlocked.
Proof.
  intros Hmu Hup Hrs. unfold Update in Hup.
  rewrite locked_free in Hup by done. unfold orReturn, bind, ret in Hup.
  simpl in Hup.
  destruct (applyBlocks h applied (set_mu (mkRWMutex true 0) hdb))
    as [[err|] hdbL| |] eqn:Happ; try done.
  injection Hup as <-.
  apply applyBlocks_announced, applyEntries_index in Happ
    as (HmL & HiL & HrL & Hnd & Hin & Hout).
  cbn [set_mu mu inactiveHosts activeHosts recentBlock] in *.
  destruct (Remove_all_index rs (Unlock hdbL))
    as (hdb2 & Hcalls & Hm2 & Hi2 & Hr2 & Hgone & Hkept).
  { by apply mu_Unlock. }
  { by rewrite Hrs. }
  { intros a Ha. rewrite Hrs in Ha. by apply Hin. }
  exists hdb2. split; [done|]. split; [|by rewrite Hi2, Hr2].
  apply map_eq. intros a. destruct (decide (a ∈ rs)) as [Ha|Ha].
  - rewrite Hgone by done. rewrite Hrs in Ha. symmetry. by apply Hin.
  - rewrite Hkept by done. apply Hout. by rewrite <- Hrs.
Qed.

(** ** Drawing from a sound directory *)

(** A weight below the aggregate of a weight-consistent tree lands on a node
    of the tree whose own weight is positive. *)
Lemma entryAtWeight_within (w : N) (hn : hostNode) :
  consistent hn → w < weightOf hn →
  ∃ p e, entryAtWeight w hn = (e, None) ∧ (p, e) ∈ nodes hn ∧
         0 < entryWeight e.
Proof.
  revert w. induction hn as [|q a e l IHl r IHr|q a l IHl r IHr]; intros w;
    simpl.
  { intros _ Hw. lia. }
  - intros (-> & Hl & Hr) Hw.
    destruct (w <? entryWeight e) eqn:Hown.
    { apply N.ltb_lt in Hown. exists q, e. split; [done|].
      split; [by left | lia]. }
    apply N.ltb_ge in Hown.
    destruct (w - entryWeight e <? weightOf l) eqn:Hleft.
    + apply N.ltb_lt in Hleft.
      destruct (IHl _ Hl Hleft) as (p & x & -> & Hin & Hpos).
      exists p, x. split; [done|]. split; [|done].
      right. apply elem_of_app. by left.
    + apply N.ltb_ge in Hleft.
      destruct (IHr (w - entryWeight e - weightOf l) Hr)
        as (p & x & -> & Hin & Hpos).
      { lia. }
      exists p, x. split; [done|]. split; [|done].
      right. apply elem_of_app. by right.
  - intros (-> & Hl & Hr) Hw.
    destruct (w <? weightOf l) eqn:Hleft.
    + apply N.ltb_lt in Hleft.
      destruct (IHl _ Hl Hleft) as (p & x & -> & Hin & Hpos).
      exists p, x. split; [done|]. split; [|done].
      apply elem_of_app. by left.
    + apply N.ltb_ge in Hleft.
      destruct (IHr (w - weightOf l) Hr) as (p & x & -> & Hin & Hpos).
      { lia. }
      exists p, x. split; [done|]. split; [|done].
      apply elem_of_app. by right.
Qed.

(** With a source that works, the draw is the number of the source reduced
    below the bound. *)
Lemma randInt_ok (reader : Z → result Z) (max v : Z) :
  (0 < max)%Z → reader max = Ok v → randInt reader max = Draw (v mod max)%Z.
Proof.
  intros Hmax Hr. unfold randInt. rewrite Hr.
  destruct (max <=? 0)%Z eqn:Hle; [lia|].
  destruct (max =? 1)%Z eqn:Hone; [|done].
  apply Z.eqb_eq in Hone as ->. by rewrite Z.mod_1_r.
Qed.

(** X17. On a directory that satisfies the invariants (I1 and I2), that no
    writer holds, with a total weight that is positive and fits an [int64],
    and with an entropy source that works, [RandomHost] returns without
    error, changes nothing, and the entry it returns is the entry of an
    active host and has a positive own weight: a host of weight zero is never
    drawn.  (The descent is that of the tree as the specification describes
    it.) *)
Theorem RandomHost_draws_an_active_host (reader : Z → result Z) (v : Z)
    (hdb : HostDB) :
  sound hdb →
  writer (mu hdb) = false →
  activeHosts hdb ≠ ∅ →
  (0 < Z.of_N (totalWeight hdb) < 2 ^ 63)%Z →
  reader (drawBound hdb) = Ok v →
  ∃ e node,
    RandomHost reader hdb = Returned (e, None) hdb ∧
    activeHosts hdb !! IPAddress e = Some node ∧
    deref node (hostTree hdb) = Some e ∧
    0 < entryWeight e.
Proof.
  intros (Hc & Hnd & Hix) Hw Hne Hrange Hr.
  rewrite RandomHost_unlocked by done.
  assert (Nat.eqb (size (activeHosts hdb)) 0 = false) as ->.
  { apply Nat.eqb_neq. by rewrite map_size_empty_iff. }
  unfold totalWeight in Hrange.
  assert (drawBound hdb = Z.of_N (weightOf (hostTree hdb))) as Hb.
  { unfold drawBound, int64.
    rewrite Z.mod_small by lia. lia. }
  rewrite (randInt_ok reader _ v) by (done || lia). rewrite Hb.
  assert (match hostTree hdb with
          | nilNode => Panicked hdb
          | _ => Returned
                   (entryAtWeight
                      (Z.to_N (int64 (v mod Z.of_N (weightOf (hostTree hdb)))))
                      (hostTree hdb)) hdb
          end
          = Returned
              (entryAtWeight
                 (Z.to_N (int64 (v mod Z.of_N (weightOf (hostTree hdb)))))
                 (hostTree hdb)) hdb) as ->.
  { destruct (hostTree hdb); [simpl in Hrange; lia|done..]. }
  pose proof (Z.mod_pos_bound v (Z.of_N (weightOf (hostTree hdb)))
                ltac:(lia)) as Hmod.
  set (n := (v mod Z.of_N (weightOf (hostTree hdb)))%Z) in *.
  assert (int64 n = n) as ->.
  { unfold int64. rewrite Z.mod_small by lia. lia. }
  destruct (entryAtWeight_within (Z.to_N n) (hostTree hdb) Hc)
    as (p & e & -> & Hin & Hpos); [lia|].
  exists e, p. split; [done|]. split; [|split; [by apply deref_nodes | done]].
  apply elem_of_map_to_list. rewrite Hix.
  by apply (list_elem_of_fmap_2 indexOf _ (p, e)).
Qed.

End hostdb_more.

(** * Further properties of the connection handler *)

Section host_more.
Context `{Specifiers}.

(** The specifiers of the six RPCs are pairwise distinct. *)
Lemma known_distinct :
  NoDup known →
  ∀ k k', k ≠ k' → specifierOf k ≠ specifierOf k'.
Proof.
  intros Hnd k k' Hne Heq. apply Hne.
  change known
    with (specifierOf <$> [Download; RenewContract; FormContract;
                           ReviseContract; RecentRevision; Settings]) in Hnd.
  apply (NoDup_fmap_eq specifierOf _ k k' Hnd); [| |done].
  - destruct k; rewrite !elem_of_cons; by eauto 10.
  - destruct k'; rewrite !elem_of_cons; by eauto 10.
Qed.

(** With distinct specifiers, the [switch] takes the case of the RPC whose
    specifier was sent. *)
Lemma switchId_known (c : Conn) (k : rpc) (h : Host) :
  NoDup known →
  switchId c (specifierOf k) h =
    (match k with
     | Download => countDownload h
     | RenewContract => countRenew h
     | FormContract => countFormContract h
     | ReviseContract => countRevise h
     | RecentRevision => countRecentRevision h
     | Settings => countSettings h
     end, [k], [], managedRPC c k).
Proof.
  intros Hnd. pose proof (known_distinct Hnd) as Hd.
  assert (∀ k1 k2, specifierOf k1 = specifierOf k2 → k1 = k2) as Hinj.
  { intros k1 k2 Heq. destruct k1, k2; try done;
      exfalso; (eapply Hd; [|exact Heq]); done. }
  unfold switchId.
  destruct (decide (specifierOf k = RPCDownload)) as [Heq|N1];
    [apply (Hinj k Download) in Heq; by subst|].
  destruct (decide (specifierOf k = RPCRenewContract)) as [Heq|N2];
    [apply (Hinj k RenewContract) in Heq; by subst|].
  destruct (decide (specifierOf k = RPCFormContract)) as [Heq|N3];
    [apply (Hinj k FormContract) in Heq; by subst|].
  destruct (decide (specifierOf k = RPCReviseContract)) as [Heq|N4];
    [apply (Hinj k ReviseContract) in Heq; by subst|].
  destruct (decide (specifierOf k = RPCRecentRevision)) as [Heq|N5];
    [apply (Hinj k RecentRevision) in Heq; by subst|].
  destruct (decide (specifierOf k = RPCSettings)) as [Heq|N6];
    [apply (Hinj k Settings) in Heq; by subst|].
  by destruct k.
Qed.

(** X18. A connection whose specifier cannot be read (time-out, short or
    malformed data) adds one to the unrecognized-call counter and to nothing
    else: no RPC handler is invoked, the error counter and the per-RPC
    counters are as before, and the connection is closed. *)
Theorem malformed_specifier_is_counted_once (c : Conn) (msg : string) (h : Host) :
  tgAdd c = None → SetDeadline c = None → ReadObject c = inl msg →
  let r := threadedHandleConn c h in
  atomicUnrecognizedCalls (after r) = AddUint64 (atomicUnrecognizedCalls h) 1 ∧
  (∀ k, counterOf k (after r) = counterOf k h) ∧
  atomicErroredCalls (after r) = atomicErroredCalls h ∧
  invoked r = [] ∧ logged r = [DebugMalformed] ∧ connClosed r = true.
Proof.
  intros Hadd Hdl Hread. unfold threadedHandleConn, handleConn.
  rewrite Hadd, Hdl, Hread. simpl. repeat split; by intros [].
Qed.

(** X19. A connection that the thread group refuses (the host is stopping),
    or whose deadline cannot be set, is dropped before anything is read: no
    counter changes and no RPC handler is invoked; the connection is
    closed. *)
Theorem refused_connection_is_dropped (c : Conn) (h : Host) :
  tgAdd c ≠ None ∨ SetDeadline c ≠ None →
  let r := threadedHandleConn c h in
  after r = h ∧ invoked r = [] ∧ connClosed r = true ∧
  (logged r = [] ∨ logged r = [WarnDeadline]).
Proof.
  intros Hor. unfold threadedHandleConn, handleConn.
  destruct (tgAdd c) as [e|]; [simpl; by eauto|].
  destruct (SetDeadline c) as [e|]; [simpl; by eauto|].
  by destruct Hor.
Qed.

(** X20. With pairwise distinct specifiers, a connection that sends the
    specifier of an RPC is dispatched to the handler of that RPC and to no
    other: the counter of that RPC grows by one, the counters of the other
    RPCs and the unrecognized-call counter do not change, and the error
    counter grows by one exactly when the handler returns an error. *)
Theorem known_specifier_is_dispatched (c : Conn) (k : rpc) (h : Host) :
  NoDup known →
  tgAdd c = None → SetDeadline c = None → ReadObject c = inr (specifierOf k) →
  let r := threadedHandleConn c h in
  invoked r = [k] ∧
  counterOf k (after r) = AddUint64 (counterOf k h) 1 ∧
  (∀ k', k' ≠ k → counterOf k' (after r) = counterOf k' h) ∧
  atomicUnrecognizedCalls (after r) = atomicUnrecognizedCalls h ∧
  atomicErroredCalls (after r)
    = match managedRPC c k with
      | Some _ => AddUint64 (atomicErroredCalls h) 1
      | None => atomicErroredCalls h
      end ∧
  connClosed r = true.
Proof.
  intros Hnd Hadd Hdl Hread. unfold threadedHandleConn, handleConn.
  rewrite Hadd, Hdl, Hread, switchId_known by done.
  destruct (managedRPC c k) as [e|].
  - destruct (_ <? 1000)%Z; destruct k; simpl;
      (repeat split; [by intros []; try done..]).
  - destruct k; simpl; (repeat split; [by intros []; try done..]).
Qed.

(** X21. A connection invokes at most one RPC handler, and a handler is
    invoked only after the thread group has accepted the task, the deadline
    has been set and the specifier of that very RPC has been read. *)
Theorem at_most_one_handler (c : Conn) (h : Host) :
  let r := threadedHandleConn c h in
  (length (invoked r) ≤ 1)%nat ∧
  ∀ k, k ∈ invoked r →
    invoked r = [k] ∧ tgAdd c = None ∧ SetDeadline c = None ∧
    ReadObject c = inr (specifierOf k).
Proof.
  unfold threadedHandleConn, handleConn.
  destruct (tgAdd c); [simpl; split; [lia | by intros k ?%elem_of_nil]|].
  destruct (SetDeadline c); [simpl; split; [lia | by intros k ?%elem_of_nil]|].
  destruct (ReadObject c) as [msg|id];
    [simpl; split; [lia | by intros k ?%elem_of_nil]|].
  unfold switchId.
  repeat case_decide; subst;
    repeat match goal with
           | |- context [managedRPC c ?k] => destruct (managedRPC c k)
           | |- context [(?a <? ?b)%Z] => destruct (a <? b)%Z
           end;
    simpl; (split; [lia|]); intros k Hk;
    first [ by apply elem_of_nil in Hk
          | apply list_elem_of_singleton in Hk as -> ]; done.
Qed.

(** X22. The error counter moves only for a handler that failed: after a
    connection it is either as before, or one more (as a [uint64]) and then
    exactly one RPC handler was invoked and returned an error.  In
    particular malformed and unknown requests are not counted as errors. *)
Theorem errors_are_handler_errors (c : Conn) (h : Host) :
  let r := threadedHandleConn c h in
  atomicErroredCalls (after r) = atomicErroredCalls h ∨
  ∃ k, invoked r = [k] ∧ is_Some (managedRPC c k) ∧
       atomicErroredCalls (after r) = AddUint64 (atomicErroredCalls h) 1.
Proof.
  unfold threadedHandleConn, handleConn.
  destruct (tgAdd c); [by left|].
  destruct (SetDeadline c); [by left|].
  destruct (ReadObject c) as [msg|id]; [by left|].
  unfold switchId.
  repeat case_decide; subst; try (by left);
    match goal with
    | |- context [managedRPC c ?k] =>
        destruct (managedRPC c k) as [e|] eqn:He; [|by left]; right; exists k
    end;
    match goal with
    | |- context [(?a <? ?b)%Z] => destruct (a <? b)%Z
    end; simpl; by eauto.
Qed.



(** What a handler does to the counters is fixed by the connection: one of
    the per-case counters, or none, is bumped, and then perhaps the error
    counter. *)
Lemma handler_bumps (c : Conn) :
  ∃ f g : Host → Host,
    (∀ h, after (threadedHandleConn c h) = g (f h)) ∧
    f ∈ [id; countDownload; countRenew; countFormContract; countRevise;
         countRecentRevision; countSettings; countUnrecognized; countErrored] ∧
    g ∈ [id; countDownload; countRenew; countFormContract; countRevise;
         countRecentRevision; countSettings; countUnrecognized; countErrored].
Proof.
  unfold threadedHandleConn, handleConn.
  destruct (tgAdd c);
    [exists id, id; split; [done|rewrite !elem_of_cons; by eauto 20]|].
  destruct (SetDeadline c);
    [exists id, id; split; [done|rewrite !elem_of_cons; by eauto 20]|].
  destruct (ReadObject c) as [m|i];
    [exists countUnrecognized, id; split;
       [done|rewrite !elem_of_cons; by eauto 20]|].
  unfold switchId.
  repeat case_decide;
    repeat match goal with
           | |- context [managedRPC c ?k] => destruct (managedRPC c k)
           end;
    first
      [ by (eexists _, id; split;
              [intros h; reflexivity | rewrite !elem_of_cons; by eauto 20])
      | by (eexists _, countErrored; split;
              [intros h; simpl; by destruct (_ <? _)%Z
              | rewrite !elem_of_cons; by eauto 20]) ].
Qed.

Lemma bumps_commute (f g : Host → Host) (h : Host) :
  f ∈ [id; countDownload; countRenew; countFormContract; countRevise;
       countRecentRevision; countSettings; countUnrecognized; countErrored] →
  g ∈ [id; countDownload; countRenew; countFormContract; countRevise;
       countRecentRevision; countSettings; countUnrecognized; countErrored] →
  f (g h) = g (f h).
Proof.
  rewrite !elem_of_cons, !elem_of_nil. intros Hf Hg.
  repeat (destruct Hf as [->|Hf]); try done;
    repeat (destruct Hg as [->|Hg]); done.
Qed.

(** Two handlers can be run in either order: the counters come out the
    same. *)
Lemma handlers_commute (c1 c2 : Conn) (h : Host) :
  after (threadedHandleConn c2 (after (threadedHandleConn c1 h)))
  = after (threadedHandleConn c1 (after (threadedHandleConn c2 h))).
Proof.
  destruct (handler_bumps c1) as (f1 & g1 & H1 & Hf1 & Hg1).
  destruct (handler_bumps c2) as (f2 & g2 & H2 & Hf2 & Hg2).
  rewrite !H1, !H2.
  rewrite (bumps_commute f2 g1) by done.
  rewrite (bumps_commute g2 g1) by done.
  rewrite (bumps_commute f2 f1) by done.
  by rewrite (bumps_commute g2 f1) by done.
Qed.

(** With the same handler results, the order of the connections does not
    matter to any counter. *)
Lemma serve_Permutation (cs cs' : list Conn) (h : Host) :
  cs ≡ₚ cs' → serve cs h = serve cs' h.
Proof.
  intros Hp. revert h. unfold serve.
  induction Hp as [|c cs cs' _ IH|c1 c2 cs|cs1 cs2 cs3 _ IH1 _ IH2];
    intros h; simpl.
  - done.
  - apply IH.
  - by rewrite handlers_commute.
  - by rewrite IH1.
Qed.

(** What a handler returns, and the count of errors so far, do not matter to
    the counters of calls. *)
Lemma callCounters_request (c : Conn) (h h' : Host) :
  callCounters h = callCounters h' →
  callCounters (after (threadedHandleConn c h))
  = callCounters (after (threadedHandleConn (request c) h')).
Proof.
  intros Hh. unfold threadedHandleConn, handleConn, request. simpl.
  destruct (tgAdd c); [done|].
  destruct (SetDeadline c); [done|].
  destruct (ReadObject c) as [m|i].
  { destruct h, h'. unfold callCounters in *. simpl in *. congruence. }
  unfold switchId. simpl.
  repeat case_decide;
    repeat match goal with
           | |- context [managedRPC c ?k] => destruct (managedRPC c k)
           end;
    simpl; repeat match goal with
                  | |- context [(?a <? ?b)%Z] => destruct (a <? b)%Z
                  end;
    destruct h, h'; unfold callCounters in *; simpl in *; congruence.
Qed.

Lemma callCounters_serve (cs : list Conn) (h h' : Host) :
  callCounters h = callCounters h' →
  callCounters (serve cs h) = callCounters (serve (request <$> cs) h').
Proof.
  revert h h'. unfold serve.
  induction cs as [|c cs IH]; intros h h' Hh; simpl; [done|].
  apply IH. by apply callCounters_request.
Qed.

Lemma sameRequest_request (cs cs' : list Conn) :
  Forall2 sameRequest cs cs' → request <$> cs = request <$> cs'.
Proof.
  induction 1 as [|c c' cs cs' (Ht & Hd & Hr) _ IH]; [done|].
  rewrite !fmap_cons, IH. unfold request. by rewrite Ht, Hd, Hr.
Qed.

(** X25. The counters of calls do not depend on the order in which
    connections are handled, nor on what the RPC handlers return.  Take the
    requests of [cs] in another order, each with handlers that may return
    something else than in the first run ([cs'] is [cs] with other handler
    results, [cs''] is [cs'] reordered): the six per-RPC counters and the
    unrecognized-call counter come out the same.  (The count of errors
    depends on what the handlers return, and is left out.) *)
Theorem counters_do_not_depend_on_order (cs cs' cs'' : list Conn) (h : Host) :
  Forall2 sameRequest cs cs' → cs' ≡ₚ cs'' →
  callCounters (serve cs h) = callCounters (serve cs'' h).
Proof.
  intros Hsame Hp.
  rewrite (callCounters_serve cs h h eq_refl).
  rewrite (callCounters_serve cs'' h h eq_refl).
  rewrite (sameRequest_request _ _ Hsame).
  by rewrite (serve_Permutation (request <$> cs') (request <$> cs'') h)
    by (by apply fmap_Permutation).
Qed.

End host_more.

(** * The further properties on the examples *)

Lemma hdb0_wellFormed : @wellFormed chain hdb0.
Proof.
  split; [|reflexivity]. split; [exact I|]. split; [apply NoDup_nil_2|].
  vm_compute. constructor.
Defined.

Lemma hdb1_active : activeHosts hdb1 ≠ ∅.
Proof.
  intros He. assert (activeHosts hdb1 !! "A" = None) as Hn.
  { rewrite He. apply lookup_empty. }
  by vm_compute in Hn.
Defined.

Lemma block1_readable :
  Forall (λ b, ∃ es, @findHostAnnouncements chain 0 b = Ok es) [block1].
Proof. repeat constructor. by eexists. Defined.

(** Inserting [hostA] into the empty directory. *)
Lemma Insert_fresh_witness :
  mu hdb0 = unlocked ∧ activeHosts hdb0 !! IPAddress hostA = None ∧
  ∃ node hdb', @Insert chain hostA hdb0 = Returned None hdb' ∧
    activeHosts hdb' !! IPAddress hostA = Some node ∧
    size (activeHosts hdb') = 1%nat.
Proof.
  split; [reflexivity|]. split; [reflexivity|].
  destruct (Insert_fresh (H:=chain) hostA hdb0 eq_refl eq_refl)
    as (node & hdb' & Hi & Ha & _ & _ & Hs & _).
  exists node, hdb'. split; [exact Hi|]. split; [exact Ha | exact Hs].
Defined.

Lemma Insert_twice_witness :
  mu hdb0 = unlocked ∧ activeHosts hdb0 !! IPAddress hostA = None ∧
  IPAddress (mkHostEntry "A" 99) = IPAddress hostA ∧
  ∃ hdb', @Insert chain hostA hdb0 = Returned None hdb' ∧
          @Insert chain (mkHostEntry "A" 99) hdb'
            = Returned (Some ErrDuplicate) hdb'.
Proof.
  split; [reflexivity|]. split; [reflexivity|]. split; [reflexivity|].
  exact (Insert_twice (H:=chain) hostA (mkHostEntry "A" 99) hdb0
           eq_refl eq_refl eq_refl).
Defined.

Lemma Insert_then_Remove_witness :
  mu hdb1 = unlocked ∧ activeHosts hdb1 !! IPAddress idle = None ∧
  ∃ hdb2 hdb3,
    @Insert chain idle hdb1 = Returned None hdb2 ∧
    @Remove chain (IPAddress idle) hdb2 = Returned None hdb3 ∧
    activeHosts hdb3 = activeHosts hdb1 ∧
    inactiveHosts hdb3 = inactiveHosts hdb1 ∧
    recentBlock hdb3 = recentBlock hdb1 ∧
    mu hdb3 = unlocked.
Proof.
  split; [reflexivity|]. split; [reflexivity|].
  exact (Insert_then_Remove (H:=chain) idle hdb1 eq_refl eq_refl).
Defined.

Lemma Remove_twice_witness :
  mu hdb1 = unlocked ∧ activeHosts hdb1 !! "A" = Some 1%nat ∧
  inactiveHosts hdb1 !! "A" = None ∧
  ∃ hdb', @Remove chain "A" hdb1 = Returned None hdb' ∧
          @Remove chain "A" hdb' = Returned (Some ErrNotFound) hdb' ∧
          @FlagHost chain "A" hdb' = Returned (Some ErrNotFound) hdb'.
Proof.
  split; [reflexivity|]. split; [reflexivity|]. split; [reflexivity|].
  exact (Remove_twice (H:=chain) "A" 1%nat hdb1 eq_refl eq_refl eq_refl).
Defined.

Lemma writer_excludes_all_witness :
  writer (mu hdbWriting) = true ∧
  @Insert chain hostA hdbWriting = Blocked hdbWriting ∧
  @RandomHost chain (λ _, Ok 0%Z) hdbWriting = Blocked hdbWriting.
Proof.
  split; [reflexivity|].
  destruct (writer_excludes_all (H:=chain) hdbWriting eq_refl)
    as (Hi & _ & _ & _ & Hr).
  split; [exact (Hi hostA) | exact (Hr (λ _, Ok 0%Z))].
Defined.

Lemma hdbReading_readers : readers (mu hdbReading) ≠ 0%nat.
Proof. by vm_compute. Defined.

Lemma readers_exclude_writers_witness :
  readers (mu hdbReading) ≠ 0%nat ∧
  @Insert chain hostA hdbReading = Blocked hdbReading ∧
  @Remove chain "A" hdbReading = Blocked hdbReading ∧
  @Update chain 0 [] [block1] hdbReading = Blocked hdbReading.
Proof.
  split; [exact hdbReading_readers|].
  destruct (readers_exclude_writers (H:=chain) hdbReading hdbReading_readers)
    as (Hi & Hr & _ & Hu).
  split; [exact (Hi hostA)|]. split; [exact (Hr "A") | exact (Hu 0 [] [block1])].
Defined.

Lemma lock_is_released_witness :
  mu hdb1 = unlocked ∧
  mu (final (@RandomHost chain (λ _, Ok 0%Z) hdb1)) = unlocked ∧
  ∃ err hdb', @Remove chain "A" hdb1 = Returned err hdb' ∧ mu hdb' = unlocked.
Proof.
  split; [reflexivity|].
  destruct (lock_is_released (H:=chain) hdb1 eq_refl)
    as (_ & Hr & _ & Hd & _).
  split; [exact (proj1 (Hd (λ _, Ok 0%Z))) | exact (Hr "A")].
Defined.

Lemma hdb1_tree : hostTree hdb1 ≠ nilNode.
Proof. by vm_compute. Defined.

Lemma hdb1_bound : (0 < @drawBound chain hdb1)%Z.
Proof. by vm_compute. Defined.

Lemma hdb1_bound_above : (1 < @drawBound chain hdb1)%Z.
Proof. by vm_compute. Defined.

Lemma hdbSingle_active : activeHosts hdbSingle ≠ ∅.
Proof.
  intros He. assert (activeHosts hdbSingle !! "single" = None) as Hn.
  { rewrite He. apply lookup_empty. }
  by vm_compute in Hn.
Defined.

Lemma hdbSingle_tree : hostTree hdbSingle ≠ nilNode.
Proof. by vm_compute. Defined.

(** With a source that always fails: on [hdb1] (bound 30) the error of the
    source comes back; on [hdbSingle] (bound 1) the source is not read and
    the one host is drawn. *)
Lemma RandomHost_reader_fails_witness :
  (writer (mu hdb1) = false ∧ activeHosts hdb1 ≠ ∅ ∧
   hostTree hdb1 ≠ nilNode ∧ (1 < @drawBound chain hdb1)%Z ∧
   @RandomHost chain (λ _, Err "no entropy") hdb1
     = Returned (zeroEntry, Some (ErrReader "no entropy")) hdb1) ∧
  (writer (mu hdbSingle) = false ∧ activeHosts hdbSingle ≠ ∅ ∧
   hostTree hdbSingle ≠ nilNode ∧ @drawBound chain hdbSingle = 1%Z ∧
   @RandomHost chain (λ _, Err "no entropy") hdbSingle
     = Returned (single, None) hdbSingle).
Proof.
  split.
  - split; [reflexivity|]. split; [exact hdb1_active|].
    split; [exact hdb1_tree|]. split; [exact hdb1_bound_above|].
    exact (proj1 (RandomHost_reader_fails (H:=chain) (λ _, Err "no entropy")
                    "no entropy" hdb1 eq_refl hdb1_active hdb1_tree)
             hdb1_bound_above eq_refl).
  - split; [reflexivity|]. split; [exact hdbSingle_active|].
    split; [exact hdbSingle_tree|]. split; [reflexivity|].
    exact (proj2 (RandomHost_reader_fails (H:=chain) (λ _, Err "no entropy")
                    "no entropy" hdbSingle eq_refl hdbSingle_active
                    hdbSingle_tree) eq_refl).
Defined.

Lemma hdb1_applied : @Update chain 0 [] [block1] hdb0 = Returned None hdb1.
Proof. by vm_compute. Defined.

Lemma Update_applies_like_Inserts_witness :
  mu hdb0 = unlocked ∧
  Forall (λ b, ∃ es, @findHostAnnouncements chain 0 b = Ok es) [block1] ∧
  @Update chain 0 [] [block1] hdb0 = Returned None hdb1 ∧
  @calls chain [OpInsert hostA; OpInsert hostB] hdb0
    = Returned [None; None] hdb1.
Proof.
  split; [reflexivity|]. split; [exact block1_readable|].
  split; [exact hdb1_applied|].
  exact (proj1 (Update_applies_like_Inserts (H:=chain) 0 [block1] hdb0 hdb1
                  eq_refl block1_readable) hdb1_applied).
Defined.

Lemma block2_fresh :
  NoDup (IPAddress <$> [hostA; hostB]) ∧
  ∀ a, a ∈ IPAddress <$> [hostA; hostB] → activeHosts hdb0 !! a = None.
Proof.
  split; [apply (bool_decide_unpack _); by vm_compute|].
  intros a _. apply lookup_empty.
Defined.

Lemma block2_duplicate :
  IPAddress hostA ∈ IPAddress <$> [hostA; hostB] ∨
  is_Some (activeHosts hdb0 !! IPAddress hostA).
Proof. left. apply (bool_decide_unpack _). by vm_compute. Defined.

Lemma Update_keeps_partial_batch_witness :
  mu hdb0 = unlocked ∧
  @findHostAnnouncements chain 0 block2 = Ok ([hostA; hostB] ++ hostA :: []) ∧
  ∃ hdb', @Update chain 0 [] [block2] hdb0
            = Returned (Some ErrDuplicate) hdb' ∧
          size (activeHosts hdb') = 2%nat ∧ mu hdb' = unlocked.
Proof.
  split; [reflexivity|]. split; [reflexivity|].
  destruct (Update_keeps_partial_batch (H:=chain) 0 block2 [] [hostA; hostB] []
              hostA hdb0 eq_refl eq_refl (proj1 block2_fresh)
              (proj2 block2_fresh) block2_duplicate)
    as (hdb' & Hup & _ & Hs & Hm).
  exists hdb'. split; [exact Hup|]. split; [exact Hs | exact Hm].
Defined.

Lemma Update_unreadable_block_witness :
  mu brittle0 = unlocked ∧
  @findHostAnnouncements brittle 0 (1, None) = Err "unreadable block" ∧
  @Update brittle 0 [(1, None)] [(2, Some [hostA])] brittle0
    = Returned (Some (ErrAnnouncements "unreadable block")) brittle0 ∧
  @Update brittle 0 [] [(1, None); (2, Some [hostA])] brittle0
    = Returned (Some (ErrAnnouncements "unreadable block")) brittle0.
Proof.
  split; [reflexivity|]. split; [reflexivity|].
  destruct (Update_unreadable_block (H:=brittle) 0 (1, None)
              "unreadable block" brittle0 eq_refl eq_refl) as [Hre Hap].
  split.
  - exact (Hre [] [] [(2, Some [hostA])] (Forall_nil_2 _)).
  - exact (Hap [] [(2, Some [hostA])] (Forall_nil_2 _)).
Defined.

Lemma block1_rewind_order :
  ["B"; "A"] ≡ₚ IPAddress <$> @announced chain 0 [block1].
Proof. apply perm_swap. Defined.

Lemma Update_then_Remove_restores_index_witness :
  mu hdb0 = unlocked ∧
  @Update chain 0 [] [block1] hdb0 = Returned None hdb1 ∧
  ["B"; "A"] ≡ₚ IPAddress <$> @announced chain 0 [block1] ∧
  ∃ hdb2,
    @calls chain (OpRemove <$> ["B"; "A"]) hdb1
      = Returned (replicate (length ["B"; "A"]) None) hdb2 ∧
    activeHosts hdb2 = activeHosts hdb0 ∧
    inactiveHosts hdb2 = inactiveHosts hdb0 ∧
    recentBlock hdb2 = recentBlock hdb0 ∧
    mu hdb2 = unlocked.
Proof.
  split; [reflexivity|]. split; [exact hdb1_applied|].
  split; [exact block1_rewind_order|].
  exact (Update_then_Remove_restores_index (H:=chain) 0 [block1] ["B"; "A"]
           hdb0 hdb1 eq_refl hdb1_applied block1_rewind_order).
Defined.

Lemma hdb1_weight : (0 < Z.of_N (totalWeight hdb1) < 2 ^ 63)%Z.
Proof. by vm_compute. Defined.

Lemma RandomHost_draws_an_active_host_witness :
  @sound chain hdb1 ∧ writer (mu hdb1) = false ∧ activeHosts hdb1 ≠ ∅ ∧
  (0 < Z.of_N (totalWeight hdb1) < 2 ^ 63)%Z ∧
  ∃ e node,
    @RandomHost chain (λ _, Ok 15%Z) hdb1 = Returned (e, None) hdb1 ∧
    activeHosts hdb1 !! IPAddress e = Some node ∧
    deref node (hostTree hdb1) = Some e ∧
    0 < @entryWeight chain e.
Proof.
  split; [exact hdb1_sound|]. split; [reflexivity|].
  split; [exact hdb1_active|]. split; [exact hdb1_weight|].
  exact (RandomHost_draws_an_active_host (H:=chain) (λ _, Ok 15%Z) 15 hdb1
           hdb1_sound eq_refl hdb1_active hdb1_weight eq_refl).
Defined.

Lemma apply_then_Remove_restores_witness :
  @wellFormed chain hdb0 ∧
  @Update chain 0 [] [block1] hdb0 = Returned None hdb1 ∧
  ["B"; "A"] ≡ₚ IPAddress <$> @announced chain 0 [block1] ∧
  ∃ hdb2,
    @calls chain (OpRemove <$> ["B"; "A"]) hdb1
      = Returned (replicate (length ["B"; "A"]) None) hdb2 ∧
    activeHosts hdb2 = activeHosts hdb0 ∧
    inactiveHosts hdb2 = inactiveHosts hdb0 ∧
    totalWeight hdb2 = totalWeight hdb0.
Proof.
  split; [exact hdb0_wellFormed|]. split; [exact hdb1_applied|].
  split; [exact block1_rewind_order|].
  exact (apply_then_Remove_restores (H:=chain) 0 [block1] ["B"; "A"]
           hdb0 hdb1 hdb0_wellFormed hdb1_applied block1_rewind_order).
Defined.

Lemma protocol_distinct : NoDup (known (H:=protocol)).
Proof. apply (bool_decide_unpack _). by vm_compute. Defined.

(** A connection that sends too few bytes. *)
Lemma malformed_specifier_is_counted_once_witness :
  tgAdd (mkConn None None (inl "short read") (λ _, None)) = None ∧
  SetDeadline (mkConn None None (inl "short read") (λ _, None)) = None ∧
  ReadObject (mkConn None None (inl "short read") (λ _, None))
    = inl "short read" ∧
  atomicUnrecognizedCalls
    (after (@threadedHandleConn protocol
              (mkConn None None (inl "short read") (λ _, None)) quiet)) = 1%Z ∧
  invoked (@threadedHandleConn protocol
             (mkConn None None (inl "short read") (λ _, None)) quiet) = [].
Proof.
  split; [reflexivity|]. split; [reflexivity|]. split; [reflexivity|].
  destruct (malformed_specifier_is_counted_once (H:=protocol)
              (mkConn None None (inl "short read") (λ _, None)) "short read"
              quiet eq_refl eq_refl eq_refl) as (Hu & _ & _ & Hi & _).
  split; [exact Hu | exact Hi].
Defined.

Lemma stopping_refuses :
  tgAdd (mkConn (Some "stopped") None (inr (specifier "Ping")) (λ _, None))
    ≠ None ∨
  SetDeadline (mkConn (Some "stopped") None (inr (specifier "Ping"))
                 (λ _, None)) ≠ None.
Proof. left. discriminate. Defined.

(** A connection that arrives while the host is stopping. *)
Lemma refused_connection_is_dropped_witness :
  (tgAdd (mkConn (Some "stopped") None (inr (specifier "Ping")) (λ _, None))
     ≠ None ∨
   SetDeadline (mkConn (Some "stopped") None (inr (specifier "Ping"))
                  (λ _, None)) ≠ None) ∧
  after (@threadedHandleConn protocol
           (mkConn (Some "stopped") None (inr (specifier "Ping")) (λ _, None))
           quiet) = quiet.
Proof.
  split; [exact stopping_refuses|].
  exact (proj1 (refused_connection_is_dropped (H:=protocol)
                  (mkConn (Some "stopped") None (inr (specifier "Ping"))
                     (λ _, None)) quiet stopping_refuses)).
Defined.

(** A settings request that the handler refuses. *)
Lemma known_specifier_is_dispatched_witness :
  NoDup (known (H:=protocol)) ∧
  tgAdd (failing (@specifierOf protocol Settings)) = None ∧
  SetDeadline (failing (@specifierOf protocol Settings)) = None ∧
  ReadObject (failing (@specifierOf protocol Settings))
    = inr (@specifierOf protocol Settings) ∧
  invoked (@threadedHandleConn protocol
             (failing (@specifierOf protocol Settings)) quiet) = [Settings] ∧
  counterOf Settings
    (after (@threadedHandleConn protocol
              (failing (@specifierOf protocol Settings)) quiet)) = 1%Z ∧
  atomicErroredCalls
    (after (@threadedHandleConn protocol
              (failing (@specifierOf protocol Settings)) quiet)) = 1%Z.
Proof.
  split; [exact protocol_distinct|].
  split; [reflexivity|]. split; [reflexivity|]. split; [reflexivity|].
  destruct (known_specifier_is_dispatched (H:=protocol)
              (failing (@specifierOf protocol Settings)) Settings quiet
              protocol_distinct eq_refl eq_refl eq_refl)
    as (Hi & Hc & _ & _ & He & _).
  split; [exact Hi|]. split; [exact Hc | exact He].
Defined.




Lemma two_connections_swapped :
  [sends (@specifierOf protocol Download); sends (specifier "Ping")]
  ≡ₚ [sends (specifier "Ping"); sends (@specifierOf protocol Download)].
Proof. apply perm_swap. Defined.

Lemma failing_or_not :
  Forall2 sameRequest
    [failing (@specifierOf protocol Download); sends (specifier "Ping")]
    [sends (@specifierOf protocol Download); sends (specifier "Ping")].
Proof. repeat constructor. Defined.

(** A download and an unknown request, in both orders; the download fails
    when it comes first and succeeds when it comes second. *)
Lemma counters_do_not_depend_on_order_witness :
  Forall2 sameRequest
    [failing (@specifierOf protocol Download); sends (specifier "Ping")]
    [sends (@specifierOf protocol Download); sends (specifier "Ping")] ∧
  [sends (@specifierOf protocol Download); sends (specifier "Ping")]
  ≡ₚ [sends (specifier "Ping"); sends (@specifierOf protocol Download)] ∧
  callCounters
    (@serve protocol
       [failing (@specifierOf protocol Download); sends (specifier "Ping")]
       quiet)
  = callCounters
      (@serve protocol
         [sends (specifier "Ping"); sends (@specifierOf protocol Download)]
         quiet).
Proof.
  split; [exact failing_or_not|]. split; [exact two_connections_swapped|].
  exact (counters_do_not_depend_on_order (H:=protocol) _ _ _ quiet
           failing_or_not two_connections_swapped).
Defined.
